(** * FlowDoge token server: the pending token-request store

    A shallow embedding of [src/token-server.ts].  The module-level
    variables [tokenRequests], [numTokenRequests] and
    [tokenRequestClearerInterval] become fields of a [World] record that is
    threaded through a small state-and-exception monad [JS]; the
    [express.Response] objects held by the store live in a heap indexed by
    handles, so that aliasing of a response between the HTTP layer and a
    stored entry is kept.  [Date.now()] reads an oracle carried by the
    world, one reading per call, so that two readings inside one handler may
    differ. *)

From Stdlib Require Import ZArith Lia Ascii String.
From stdpp Require Import base gmap sets list strings fin_maps pretty.

#[local] Set Warnings "-clear-no-such-hyp".

Local Open Scope Z_scope.

(** ** Data model *)

(** [interface AccessToken] (lines 21-26). *)
Record AccessToken := mkAccessToken {
  access_token : string;
  refresh_token : string;
  expires_in : Z;
  token_type : string
}.

(** A reference to an [express.Response] object. *)
Definition Handle := N.

(** [interface TokenRequest] (lines 28-37); [null] is [None]. *)
Record TokenRequest := mkTokenRequest {
  state : string;
  response : option Handle;
  createdAt : Z;
  result : option AccessToken
}.

(** The part of an [express.Response] (a Node [ServerResponse]) that the
    server drives: the status code, the headers set so far, the chunks
    written, whether the head has been flushed and whether [end] was
    called. *)
Record Response := mkResponse {
  statusCode : Z;
  headers : list (string * string);
  body : list string;
  headersSent : bool;
  finished : bool
}.

(** A response as the HTTP layer hands it to a route. *)
Definition fresh_response : Response := mkResponse 200 [] [] false false.

(** The module state (lines 39-46) together with the runtime it runs in:
    the heap of response objects, the interval timers of the event loop
    (identifier and period) and the [Date.now()] oracle.

    [tokenRequests] holds the object's own properties.  The object of
    line 39 also inherits names from [Object.prototype] ([constructor],
    [toString], [__proto__], ...), which [tokenRequests[state]] and
    [state in tokenRequests] see; these are not modelled.  No inherited
    name contains 32 characters of the class in a row, so the lookups of
    the model are those of the code for every [state] that passes the
    guard of [/token], and for every [state] that has an entry of its
    own. *)
Record World := mkWorld {
  tokenRequests : gmap string TokenRequest;
  numTokenRequests : Z;
  tokenRequestClearerInterval : option nat;
  heap : gmap N Response;
  intervals : gmap nat Z;
  nextIntervalId : nat;
  clock : N → Z;
  clockReads : N
}.

Definition MAX_REQUEST_LIFETIME : Z := 1000 * 60 * 10.
Definition MAX_TOKEN_REQUESTS : Z := 10000.

Definition set_tokenRequests (f : gmap string TokenRequest → gmap string TokenRequest)
    (w : World) : World :=
  mkWorld (f (tokenRequests w)) (numTokenRequests w) (tokenRequestClearerInterval w)
          (heap w) (intervals w) (nextIntervalId w) (clock w) (clockReads w).

Definition set_numTokenRequests (f : Z → Z) (w : World) : World :=
  mkWorld (tokenRequests w) (f (numTokenRequests w)) (tokenRequestClearerInterval w)
          (heap w) (intervals w) (nextIntervalId w) (clock w) (clockReads w).

Definition set_tokenRequestClearerInterval (i : option nat) (w : World) : World :=
  mkWorld (tokenRequests w) (numTokenRequests w) i
          (heap w) (intervals w) (nextIntervalId w) (clock w) (clockReads w).

Definition set_heap (f : gmap N Response → gmap N Response) (w : World) : World :=
  mkWorld (tokenRequests w) (numTokenRequests w) (tokenRequestClearerInterval w)
          (f (heap w)) (intervals w) (nextIntervalId w) (clock w) (clockReads w).

Definition set_intervals (f : gmap nat Z → gmap nat Z) (n : nat) (w : World) : World :=
  mkWorld (tokenRequests w) (numTokenRequests w) (tokenRequestClearerInterval w)
          (heap w) (f (intervals w)) n (clock w) (clockReads w).

Definition set_clockReads (n : N) (w : World) : World :=
  mkWorld (tokenRequests w) (numTokenRequests w) (tokenRequestClearerInterval w)
          (heap w) (intervals w) (nextIntervalId w) (clock w) n.

(** The server right after start-up, with a given clock. *)
Definition initial (c : N → Z) : World :=
  mkWorld ∅ 0 None ∅ ∅ 0 c 0.

(** The object behind a handle; a handle never used before denotes a
    response nobody has written to. *)
Definition resp (w : World) (h : Handle) : Response :=
  default fresh_response (heap w !! h).

(** ** The monad: state passing with JavaScript exceptions *)

Inductive Exn := TypeError | ERR_HTTP_HEADERS_SENT.

Inductive Completion (A : Type) :=
  | Normal (a : A)
  | Thrown (e : Exn).
Arguments Normal {A} a.
Arguments Thrown {A} e.

Definition JS (A : Type) : Type := World → Completion A * World.

#[global] Instance JS_ret : MRet JS := λ A a w, (Normal a, w).
#[global] Instance JS_bind : MBind JS := λ A B f m w,
  match m w with
  | (Normal a, w') => f a w'
  | (Thrown e, w') => (Thrown e, w')
  end.

Definition throw {A} (e : Exn) : JS A := λ w, (Thrown e, w).

Definition try_catch {A} (m : JS A) (handler : Exn → JS A) : JS A := λ w,
  match m w with
  | (Thrown e, w') => handler e w'
  | r => r
  end.

Definition gets {A} (f : World → A) : JS A := λ w, (Normal (f w), w).
Definition modify (f : World → World) : JS unit := λ w, (Normal (), f w).

(** [for (const x of l) body(x)]. *)
Fixpoint for_of {A} (l : list A) (body : A → JS unit) : JS unit :=
  match l with
  | [] => mret ()
  | x :: l' => body x ;; for_of l' body
  end.

(** The world a computation leaves behind, and whether it threw. *)
Definition exec {A} (m : JS A) (w : World) : World := (m w).2.
Definition throws {A} (m : JS A) (w : World) : bool :=
  match (m w).1 with Thrown _ => true | Normal _ => false end.

(** ** The runtime *)

(** [Date.now()]: the next reading of the oracle. *)
Definition Date_now : JS Z := λ w,
  (Normal (clock w (clockReads w)), set_clockReads (N.succ (clockReads w)) w).

(** [setInterval(clearOldTokenRequests, period)]: the only callback ever
    scheduled is the sweep, so a timer is its identifier and its period. *)
Definition setInterval (period : Z) : JS nat := λ w,
  (Normal (nextIntervalId w),
   set_intervals (insert (nextIntervalId w) period) (S (nextIntervalId w)) w).

Definition clearInterval (id : nat) : JS unit :=
  modify (λ w, set_intervals (delete id) (nextIntervalId w) w).

Definition update_response (h : Handle) (f : Response → Response) : JS unit :=
  modify (λ w, set_heap (insert h (f (resp w h))) w).

(** [res.status(code)] only assigns [statusCode]. *)
Definition res_status (h : Handle) (code : Z) : JS unit :=
  update_response h (λ r,
    mkResponse code (headers r) (body r) (headersSent r) (finished r)).

(** [res.header(k, v)] throws once the head has been flushed.  The value
    is recorded as passed: Express appends a charset to a [Content-type]
    that names none, which is not modelled. *)
Definition res_header (h : Handle) (k v : string) : JS unit :=
  sent ← gets (λ w, headersSent (resp w h));
  if sent : bool then throw ERR_HTTP_HEADERS_SENT
  else update_response h (λ r,
    mkResponse (statusCode r) ((k, v) :: headers r) (body r) (headersSent r)
               (finished r)).

(** [res.write(chunk)] flushes the head and appends the chunk; after [end]
    the chunk is dropped (the error is reported asynchronously). *)
Definition res_write (h : Handle) (chunk : string) : JS unit :=
  update_response h (λ r,
    if finished r then r
    else mkResponse (statusCode r) (headers r) (body r ++ [chunk]) true false).

(** [res.end(chunk?)] closes the response; a second [end] does nothing. *)
Definition res_end (h : Handle) (chunk : option string) : JS unit :=
  update_response h (λ r,
    if finished r then r
    else mkResponse (statusCode r) (headers r)
           (body r ++ option_list chunk) true true).

(** [Math.round(a / b)] on integers with [0 < b]: the quotient rounded to
    the nearest integer, halves towards plus infinity.  The code divides
    in doubles: it agrees with this exact rounding while the quotient is
    small enough for its nearest double to round alike, and a zero divisor
    (NaN or Infinity in the code) is outside the definition. *)
Definition Math_round_div (a b : Z) : Z := (2 * a + b) `div` (2 * b).

(** ** The store (lines 48-134) *)

Section Store.

(** [JSON.stringify] on a token, left to the runtime. *)
Variable JSON_stringify : AccessToken → string.

(** [Object.keys(tokenRequests)]. *)
Definition Object_keys (w : World) : list string :=
  (map_to_list (tokenRequests w)).*1.

(** Lines 51-59, the body of the loop of the sweep.  [tokenRequests[state]]
    of a missing key is [undefined], and reading [.createdAt] from it
    throws. *)
Definition sweepStep (now threshold : Z) (state : string) : JS unit :=
  request ← gets (λ w, tokenRequests w !! state);
  match request with
  | None => throw TypeError
  | Some request =>
      if bool_decide (now - createdAt request > threshold) then
        modify (set_tokenRequests (delete state));;
        modify (set_numTokenRequests (λ n, n - 1));;
        match response request with
        | Some r => res_status r 408;; res_end r None
        | None => mret ()
        end
      else mret ()
  end.

(** Lines 48-64; the default threshold is passed by the callers. *)
Definition clearOldTokenRequests (threshold : Z) : JS unit :=
  now ← Date_now;
  keys ← gets Object_keys;
  for_of keys (sweepStep now threshold);;
  n ← gets numTokenRequests;
  timer ← gets tokenRequestClearerInterval;
  match timer with
  | Some id => if bool_decide (n = 0) then clearInterval id else mret ()
  | None => mret ()
  end.

(** Lines 66-74. *)
Definition calculateMeanTokenRequestLifetime : JS Z :=
  now ← Date_now;
  keys ← gets Object_keys;
  total ← gets (λ w,
    foldl (λ acc k,
      match tokenRequests w !! k with
      | Some request => acc + (now - createdAt request)
      | None => acc
      end) 0 keys);
  n ← gets numTokenRequests;
  mret (Math_round_div total n).

(** Lines 76-78. *)
Definition forceClearOldTokenRequests : JS unit :=
  threshold ← calculateMeanTokenRequestLifetime;
  clearOldTokenRequests threshold.

(** Lines 85-90: the capacity guard at the head of [addTokenRequest]. *)
Definition evictIfFull : JS unit :=
  n ← gets numTokenRequests;
  if bool_decide (n >= MAX_TOKEN_REQUESTS) then
    clearOldTokenRequests MAX_REQUEST_LIFETIME;;
    n ← gets numTokenRequests;
    if bool_decide (n >= MAX_TOKEN_REQUESTS) then forceClearOldTokenRequests
    else mret ()
  else mret ().

(** Lines 92-108: build [req] and create, replay or replace.  [state in
    tokenRequests] is the test for an own property (see [World]). *)
Definition storeRequest (state : string) (response : option Handle)
    (result : option AccessToken) : JS unit :=
  now ← Date_now;
  let req := mkTokenRequest state response now result in
  old ← gets (λ w, tokenRequests w !! state);
  match old with
  | None =>
      modify (set_numTokenRequests (λ n, n + 1));;
      modify (set_tokenRequests (insert state req))
  | Some (mkTokenRequest _ _ _ storedResult) =>
      match storedResult, response with
      | Some stored, Some r =>
          res_status r 200;;
          res_write r (JSON_stringify stored)
      | _, _ =>
          modify (set_tokenRequests (insert state req))
      end
  end.

(** Lines 110-115: start the sweep unless the variable holds a timer. *)
Definition ensureClearer : JS unit :=
  timer ← gets tokenRequestClearerInterval;
  match timer with
  | None =>
      id ← setInterval (MAX_REQUEST_LIFETIME + 1000);
      modify (set_tokenRequestClearerInterval (Some id))
  | Some _ => mret ()
  end.

(** Lines 80-116. *)
Definition addTokenRequest (state : string) (response : option Handle)
    (result : option AccessToken) : JS unit :=
  evictIfFull;;
  storeRequest state response result;;
  ensureClearer.

(** Lines 118-134.  [maybeTokenRequest !== null] also holds for
    [undefined], so the test goes on to read [.response], which throws on
    [undefined]; the test stands outside the [try].  The lookup is that of
    an own property (see [World]): for an inherited name the code finds a
    value and takes another path. *)
Definition handleAccessToken (state : string) (token : AccessToken) : JS unit :=
  maybeTokenRequest ← gets (λ w, tokenRequests w !! state);
  match maybeTokenRequest with
  | None => throw TypeError
  | Some request =>
      match response request with
      | Some r =>
          try_catch
            (res_status r 200;;
             res_header r "Content-type" "application/json";;
             res_end r (Some (JSON_stringify token));;
             modify (set_tokenRequests (delete state)))
            (λ _, addTokenRequest state None (Some token))
      | None => addTokenRequest state None (Some token)
      end
  end.

(** The timer callback: the event loop runs the sweep with its default
    threshold while the timer is scheduled. *)
Definition intervalFires (id : nat) : JS unit :=
  scheduled ← gets (λ w, intervals w !! id);
  match scheduled with
  | Some _ => clearOldTokenRequests MAX_REQUEST_LIFETIME
  | None => mret ()
  end.

(** ** The HTTP front door (lines 136-213) *)

(** The character class [[a-z0-9]] under the [i] flag. *)
Definition in_class (c : ascii) : bool :=
  let n := N_of_ascii c in
  ((48 <=? n) && (n <=? 57) || (97 <=? n) && (n <=? 122)
   || (65 <=? n) && (n <=? 90))%N.

(** [[a-z0-9]{n}] matched at the head of [s]. *)
Fixpoint matches_here (n : nat) (s : string) : bool :=
  match n with
  | O => true
  | S n' =>
      match s with
      | EmptyString => false
      | String c s' => in_class c && matches_here n' s'
      end
  end.

(** [s.match(/[a-z0-9]{32}/i)] is truthy: the pattern carries no anchor,
    so the search tries every start position. *)
Fixpoint String_match (s : string) : bool :=
  if matches_here 32 s then true
  else match s with
       | EmptyString => false
       | String _ s' => String_match s'
       end.

(** A value of [req.query]: absent, a string, or an array or object. *)
Inductive QueryValue :=
  | QUndefined
  | QString (s : string)
  | QOther.

(** Lines 136-146, [app.get("/token")]. *)
Definition get_token (q : QueryValue) (res : Handle) : JS unit :=
  match q with
  | QString state =>
      if String_match state then addTokenRequest state (Some res) None
      else res_status res 400;; res_end res None
  | _ => res_status res 400;; res_end res None
  end.

(** Lines 188-198, the continuation of [app.get("/login")] once the
    provider answered 200 with a body that parses to [token]: an exception
    of [handleAccessToken] rejects the promise and lands in its [catch]. *)
Definition login_then (state : string) (token : AccessToken) (res : Handle)
    : JS unit :=
  try_catch
    (handleAccessToken state token;;
     res_end res (Some "Thanks for logging into Flowdoge. You can close this now."))
    (λ _, res_end res (Some "Couldn't parse response from Flowdock :/")).

End Store.

(** The shape the specification asks of a correlation token,
    [^[a-z0-9]{32}$] ignoring case: exactly 32 characters of the class. *)
Fixpoint all_in_class (s : string) : bool :=
  match s with
  | EmptyString => true
  | String c s' => in_class c && all_in_class s'
  end.

Definition spec_state_shape (s : string) : bool :=
  (String.length s =? 32)%nat && all_in_class s.

(** The three module variables, without the runtime around them. *)
Definition store_of (w : World)
    : gmap string TokenRequest * Z * option nat :=
  (tokenRequests w, numTokenRequests w, tokenRequestClearerInterval w).

(** ** Concrete inputs for the scenarios *)

Definition dquote : string := String (ascii_of_nat 34) EmptyString.
Definition quoted (s : string) : string := dquote +:+ s +:+ dquote.

(** [JSON.stringify] on tokens whose strings need no escaping. *)
Definition sample_stringify (t : AccessToken) : string :=
  "{" +:+ quoted "access_token" +:+ ":" +:+ quoted (access_token t)
  +:+ "," +:+ quoted "refresh_token" +:+ ":" +:+ quoted (refresh_token t)
  +:+ "," +:+ quoted "expires_in" +:+ ":" +:+ pretty (expires_in t)
  +:+ "," +:+ quoted "token_type" +:+ ":" +:+ quoted (token_type t)
  +:+ "}".

Definition sample_token : AccessToken := mkAccessToken "t" "r" 3600 "bearer".

(** A well-formed correlation token. *)
Definition state_a : string := "aaaaaaaaaaaaaaaaaaaaaaaaaaaaaaaa".
Definition state_b : string := "bbbbbbbbbbbbbbbbbbbbbbbbbbbbbbbb".

(** A clock that stands still. *)
Definition frozen (t : Z) : N → Z := λ _, t.

(** The test of line 138, [typeof state === "string" && state.match(...)]. *)
Definition passes_guard (q : QueryValue) : bool :=
  match q with
  | QString s => String_match s
  | _ => false
  end.

(** A token of 33 characters: one more than the specified shape allows. *)
Definition state_33 : string := state_a +:+ "a".


(** ** Vocabulary of the statements *)

(** The age the sweep that starts in world [w] measures for a request: the
    next reading of the clock minus its creation time. *)
Definition age (w : World) (r : TokenRequest) : Z :=
  clock w (clockReads w) - createdAt r.

(** The difference between the counter and the number of keys. *)
Definition drift (w : World) : Z :=
  numTokenRequests w - Z.of_nat (size (tokenRequests w)).

(** What the loop of the sweep leaves alone. *)
Definition same_runtime (w w' : World) : Prop :=
  tokenRequestClearerInterval w' = tokenRequestClearerInterval w
  ∧ intervals w' = intervals w
  ∧ nextIntervalId w' = nextIntervalId w
  ∧ clock w' = clock w
  ∧ clockReads w' = clockReads w.

(** The threshold the second pass computes when it starts in world [w]. *)
Definition meanThreshold (w : World) : Z :=
  match (calculateMeanTokenRequestLifetime w).1 with
  | Normal t => t
  | Thrown _ => 0
  end.

(** The sum of the ages the second pass adds up when it starts in [w]. *)
Definition totalAge (w : World) : Z :=
  foldl (λ acc k,
    match tokenRequests w !! k with
    | Some request => acc + (age w request)
    | None => acc
    end) 0 (Object_keys w).

(** A clock that advances by [step] milliseconds at every reading. *)
Definition ticking (step : Z) : N → Z := λ n, Z.of_N n * step.

(** The handles attached to the entry of a token. *)
Definition waiters (w : World) (s : string) : list Handle :=
  match tokenRequests w !! s with
  | Some request => option_list (response request)
  | None => []
  end.

(** The [i]-th of a family of distinct tokens, well-formed for
    [i < 90000]: 27 zeros and the five decimal digits of [10000 + i]. *)
Definition key (i : N) : string :=
  "000000000000000000000000000" +:+ pretty (10000 + i)%N.

(** [n] polls of [/token], for the tokens [key first], [key (first + 1)],
    ..., each on a response of its own. *)
Fixpoint polls (JSON_stringify : AccessToken → string) (n : nat) (first : N)
    : JS unit :=
  match n with
  | O => mret ()
  | S n' =>
      get_token JSON_stringify (QString (key first)) first;;
      polls JSON_stringify n' (N.succ first)
  end.

(** A clock that reads [t0] for the first [n] readings and [t1] after. *)
Definition jump (n : N) (t0 t1 : Z) : N → Z :=
  λ i, if (i <? n)%N then t0 else t1.


(** A saturated store with two old entries and 9998 new ones: a result
    held for [state_a] and a poll for [key 0], both made at time 0, and
    the polls for [key 1] to [key 9998] made at time 500000, which is also
    when the next call arrives. *)
Definition saturated_mixed : World :=
  exec (addTokenRequest sample_stringify state_a None (Some sample_token);;
        polls sample_stringify (Z.to_nat 9999) 0)
       (initial (jump 2 0 500000)).

(** A response handle is attached when some entry of the map holds it. *)
Definition attached (w : World) (h : Handle) : Prop :=
  ∃ k e, tokenRequests w !! k = Some e ∧ response e = Some h.

(** The calls through which the routes and the event loop drive the
    store. *)
Inductive StoreOp :=
  | Register (state : string) (response : option Handle)
             (result : option AccessToken)
  | Deliver (state : string) (token : AccessToken)
  | Sweep (threshold : Z)
  | Fire (id : nat).

Definition run (JSON_stringify : AccessToken → string) (op : StoreOp)
    : JS unit :=
  match op with
  | Register state response result =>
      addTokenRequest JSON_stringify state response result
  | Deliver state token => handleAccessToken JSON_stringify state token
  | Sweep threshold => clearOldTokenRequests threshold
  | Fire id => intervalFires id
  end.

(** The call hands the handle to the store. *)
Definition passes (op : StoreOp) (h : Handle) : Prop :=
  match op with
  | Register _ (Some h') _ => h' = h
  | _ => False
  end.

(** A sequence of calls, each in a turn of its own: an exception ends the
    turn it is thrown in. *)
Definition run_all (JSON_stringify : AccessToken → string)
    (ops : list StoreOp) (w : World) : World :=
  foldl (λ v op, exec (run JSON_stringify op) v) w ops.

(** A computation is silent on [h] when, started where [h] is attached to
    no entry, it leaves the object of [h] alone and attaches it nowhere. *)
Definition silent {A} (h : Handle) (m : JS A) : Prop :=
  ∀ w, ¬ attached w h →
    heap (exec m w) !! h = heap w !! h ∧ ¬ attached (exec m w) h.

(** ** The callback route (lines 148-213) *)

(** How reading the provider's answer ends: [text()] rejects, the text is
    not JSON, or it parses to a token. *)
Inductive Body :=
  | BodyRejected
  | BodyUnparseable
  | BodyToken (token : AccessToken).

(** How the exchange with the provider ends: [fetch] rejects, or the
    provider answers with a status and a body. *)
Inductive Exchange :=
  | ExchangeRejected
  | ExchangeAnswered (status : Z) (body : Body).

(** Lines 184-212, what [/login] does once the exchange has ended. *)
Definition login_settled (JSON_stringify : AccessToken → string)
    (state : string) (x : Exchange) (res : Handle) : JS unit :=
  match x with
  | ExchangeRejected => mret ()
  | ExchangeAnswered status body =>
      if bool_decide (status = 200) then
        match body with
        | BodyToken token => login_then JSON_stringify state token res
        | _ => res_end res (Some "Couldn't parse response from Flowdock :/")
        end
      else
        res_end res
          (Some "Errmmm, not sure what happened, but that didn't work. Maybe try again?")
  end.

(** Lines 148-213, [app.get("/login")], with the end of the exchange it
    starts given as [x]. *)
Definition get_login (JSON_stringify : AccessToken → string)
    (state code : QueryValue) (x : Exchange) (res : Handle) : JS unit :=
  match state, code with
  | QString state, QString _ => login_settled JSON_stringify state x res
  | _, _ => res_status res 400;; res_end res None
  end.

(** The test of line 154: both parameters are strings. *)
Definition has_params (state code : QueryValue) : bool :=
  match state, code with
  | QString _, QString _ => true
  | _, _ => false
  end.

(** The exchange ended with a token: status 200 and a body that parses. *)
Definition yields_token (x : Exchange) : bool :=
  match x with
  | ExchangeAnswered 200 (BodyToken _) => true
  | _ => false
  end.

(** A response that nobody has flushed or closed yet. *)
Definition open_response (r : Response) : Prop :=
  headersSent r = false ∧ finished r = false.

(** What lines 123-125 make of an open response. *)
Definition delivered (JSON_stringify : AccessToken → string)
    (token : AccessToken) (r : Response) : Response :=
  mkResponse 200 (("Content-type", "application/json") :: headers r)
             (body r ++ [JSON_stringify token]) true true.

(** The entry that holds a result for a token and no waiter. *)
Definition held (state : string) (now : Z) (token : AccessToken)
    : TokenRequest :=
  mkTokenRequest state None now (Some token).

(** A response that was answered with a timeout: status 408 and closed. *)
Definition timed_out (r : Response) : Prop :=
  statusCode r = 408 ∧ finished r = true.

(** A store of two held results, one 1000 ms and one 600 ms old, with an
    accurate counter and a clock that stands still. *)
Definition two_ages : World :=
  mkWorld {[ state_a := held state_a 0 sample_token;
             state_b := held state_b 400 sample_token ]}
          2 None ∅ ∅ 0 (λ _, 1000) 0.

(** ** The server as a sequence of turns *)

(** What the event loop hands to the handlers: a poll on [/token], a
    callback on [/login] together with the outcome of its exchange with the
    provider, and a firing of an interval timer. *)
Inductive Request :=
  | Poll (state : QueryValue) (res : Handle)
  | Callback (state code : QueryValue) (x : Exchange) (res : Handle)
  | Tick (id : nat).

Definition serve (JSON_stringify : AccessToken → string) (rq : Request)
    : JS unit :=
  match rq with
  | Poll state res => get_token JSON_stringify state res
  | Callback state code x res => get_login JSON_stringify state code x res
  | Tick id => intervalFires id
  end.

(** Each request in a turn of its own, from left to right. *)
Definition serve_all (JSON_stringify : AccessToken → string)
    (rqs : list Request) (w : World) : World :=
  foldl (λ v rq, exec (serve JSON_stringify rq) v) w rqs.

(** The second world differs from the first in responses and clock
    readings only. *)
Definition same_store (w w' : World) : Prop :=
  tokenRequests w' = tokenRequests w
  ∧ numTokenRequests w' = numTokenRequests w
  ∧ tokenRequestClearerInterval w' = tokenRequestClearerInterval w
  ∧ intervals w' = intervals w
  ∧ nextIntervalId w' = nextIntervalId w.

(** The second world has the timer variable and the timer counter of the
    first, and no timer the first has not. *)
Definition timers_shrink (w w' : World) : Prop :=
  tokenRequestClearerInterval w' = tokenRequestClearerInterval w
  ∧ intervals w' ⊆ intervals w
  ∧ nextIntervalId w' = nextIntervalId w.

(** Either no timer was ever created, or exactly one was: timer 0, with the
    period of the sweep, which the variable still names whether or not it
    is still scheduled. *)
Definition timer_history (w : World) : Prop :=
  match tokenRequestClearerInterval w with
  | None => nextIntervalId w = 0%nat ∧ intervals w = ∅
  | Some id =>
      id = 0%nat ∧ nextIntervalId w = 1%nat
      ∧ intervals w ⊆ {[ 0%nat := MAX_REQUEST_LIFETIME + 1000 ]}
  end.


(** The token a callback obtains from the provider, if any. *)
Definition token_of (x : Exchange) : option AccessToken :=
  match x with
  | ExchangeAnswered status (BodyToken token) =>
      if bool_decide (status = 200) then Some token else None
  | _ => None
  end.

(** The entries a request can write in world [w]: a poll that passes the
    guard files a waiter under its token; a callback that obtained a result
    files it under its token if the store has an entry for it. *)
Definition files (rq : Request) (w : World) (k : string) (e : TokenRequest)
    : Prop :=
  match rq with
  | Poll q res =>
      q = QString k ∧ String_match k = true
      ∧ ∃ now, e = mkTokenRequest k (Some res) now None
  | Callback state code x res =>
      state = QString k ∧ is_Some (tokenRequests w !! k)
      ∧ ∃ token now, token_of x = Some token
                     ∧ e = mkTokenRequest k None now (Some token)
  | Tick _ => False
  end.

(** ** One response object per request *)

(** The response object of a request; a firing of a timer has none. *)
Definition handle_of (rq : Request) : option Handle :=
  match rq with
  | Poll _ res => Some res
  | Callback _ _ _ res => Some res
  | Tick _ => None
  end.

Definition handles (rqs : list Request) : list Handle := omap handle_of rqs.

(** What holds of the waiters when the responses handed out so far are
    [used]: no response outside [used] has been written to; a response an
    entry waits on was handed out, has not been written to, and no other
    key waits on it. *)
Definition waiters_fresh (used : list Handle) (w : World) : Prop :=
  (∀ h, h ∉ used → resp w h = fresh_response)
  ∧ (∀ k e h, tokenRequests w !! k = Some e → response e = Some h →
              h ∈ used ∧ resp w h = fresh_response)
  ∧ (∀ k k' e e' h,
       tokenRequests w !! k = Some e → response e = Some h →
       tokenRequests w !! k' = Some e' → response e' = Some h → k = k').

(** The server after one poll for [state_a] on response 1, and the
    callback for [state_a] that follows it on response 2. *)
Definition after_poll_a : World :=
  serve_all sample_stringify [Poll (QString state_a) 1%N]
    (initial (ticking 5000)).

Definition callback_a : JS unit :=
  get_login sample_stringify (QString state_a) (QString "code")
    (ExchangeAnswered 200 (BodyToken sample_token)) 2%N.

(** A store of one held result that is 10 ms old at the first clock reading
    and 11 ms old at the second, under a counter that reads 100. *)
Definition inflated : World :=
  mkWorld {[ state_a := held state_a 0 sample_token ]}
          100 None ∅ ∅ 0 (ticking 1) 10.

(** ** States of the shape the guard accepts *)

(** A callback's [state] passes the expression of the [/token] guard.  The
    store's lookups are those of own properties; a state of this shape is
    never a name the object inherits, so for such requests the model is
    the code. *)
Definition guard_shaped (rq : Request) : Prop :=
  match rq with
  | Callback (QString s) _ _ _ => String_match s = true
  | _ => True
  end.

(** A poll for [state_a] on response 1, then the callback for [state_a] on
    response 2 with a token from the provider. *)
Definition poll_then_callback_a : list Request :=
  [ Poll (QString state_a) 1%N;
    Callback (QString state_a) (QString "code")
      (ExchangeAnswered 200 (BodyToken sample_token)) 2%N ].
(** * Properties *)

(** ** Unfolding the monad *)

Ltac js_unfold :=
  unfold exec, throws, mbind, JS_bind, mret, JS_ret, gets, modify, throw,
    try_catch in *.

Lemma bind_normal {A B} (m : JS A) (f : A → JS B) w a w' :
  m w = (Normal a, w') → (m ≫= f) w = f a w'.
Proof. intros H. unfold mbind, JS_bind. by rewrite H. Qed.

Lemma bind_thrown {A B} (m : JS A) (f : A → JS B) w e w' :
  m w = (Thrown e, w') → (m ≫= f) w = (Thrown e, w').
Proof. intros H. unfold mbind, JS_bind. by rewrite H. Qed.

(** ** Delivery without a registered entry *)

Lemma handleAccessToken_absent JSON_stringify state token w :
  tokenRequests w !! state = None →
  handleAccessToken JSON_stringify state token w = (Thrown TypeError, w).
Proof.
  intros Habsent. unfold handleAccessToken. js_unfold. by rewrite Habsent.
Qed.

(** C2.  [handleAccessToken] raises: called with a token of the shape the
    guard of [/token] accepts that has no entry, it throws a [TypeError],
    which no [try] of the store catches, and leaves the store as it was.
    (The shape keeps the names the object inherits out of the statement:
    for those the lookup finds a value and the code takes another
    path.) *)
Theorem handleAccessToken_raises_without_entry JSON_stringify state token w :
  String_match state = true →
  tokenRequests w !! state = None →
  throws (handleAccessToken JSON_stringify state token) w = true
  ∧ exec (handleAccessToken JSON_stringify state token) w = w.
Proof.
  intros _ Habsent. unfold throws, exec.
  by rewrite handleAccessToken_absent.
Qed.

Lemma handleAccessToken_raises_without_entry_witness :
  throws (handleAccessToken sample_stringify state_a sample_token)
         (initial (frozen 0)) = true
  ∧ exec (handleAccessToken sample_stringify state_a sample_token)
         (initial (frozen 0)) = initial (frozen 0).
Proof.
  apply (handleAccessToken_raises_without_entry sample_stringify state_a
           sample_token (initial (frozen 0))).
  - reflexivity.
  - reflexivity.
Defined.

(** ** The shape check of [/token] *)

Lemma reject_400 res w :
  let w' := exec (res_status res 400;; res_end res None) w in
  store_of w' = store_of w
  ∧ statusCode (resp w' res) = 400
  ∧ finished (resp w' res) = true.
Proof.
  unfold res_status, res_end, update_response, resp. js_unfold. simpl.
  rewrite !lookup_insert_eq. simpl.
  split; [done|]. by destruct (finished (default fresh_response (heap w !! res))).
Qed.

Lemma all_in_class_matches_here s :
  all_in_class s = true → matches_here (String.length s) s = true.
Proof.
  induction s as [|c s IH]; simpl; [done|].
  intros [Hc Hs]%andb_prop. rewrite Hc. simpl. by apply IH.
Qed.

(** Every token of the specified shape passes the check of the code. *)
Lemma spec_state_shape_accepted s :
  spec_state_shape s = true → String_match s = true.
Proof.
  unfold spec_state_shape. intros [Hlen Hall]%andb_prop.
  apply Nat.eqb_eq in Hlen. apply all_in_class_matches_here in Hall.
  rewrite Hlen in Hall. destruct s; [done|].
  unfold String_match. by rewrite Hall.
Qed.

(** The accepting branch hands the token to the store as it is. *)
Lemma get_token_accepted JSON_stringify s res :
  String_match s = true →
  get_token JSON_stringify (QString s) res
  = addTokenRequest JSON_stringify s (Some res) None.
Proof. intros H. unfold get_token. by rewrite H. Qed.

(** C3.  The check of line 138 lets through a token that is not of the
    specified shape: a 33-character token does not match
    [^[a-z0-9]{32}$], yet [/token] answers no 400 and registers it in the
    store. *)
Lemma get_token_accepts_longer_state :
  let w := initial (frozen 0) in
  let w' := exec (get_token sample_stringify (QString state_33) 1%N) w in
  spec_state_shape state_33 = false
  ∧ statusCode (resp w' 1%N) = 200
  ∧ finished (resp w' 1%N) = false
  ∧ tokenRequests w' !! state_33
    = Some (mkTokenRequest state_33 (Some 1%N) 0 None)
  ∧ numTokenRequests w = 0 ∧ numTokenRequests w' = 1.
Proof. vm_compute. done. Qed.

(** What the check does guarantee.  The pattern of line 138 is not
    anchored: a request whose [state] is not a string, or is a string with
    no run of 32 characters of [[a-z0-9]] (ignoring case) anywhere in it,
    is answered 400 at once, the response is closed and the store is left
    untouched; hence only strings containing such a run reach the store. *)
Lemma get_token_rejects_unmatched JSON_stringify q res w :
  passes_guard q = false →
  let w' := exec (get_token JSON_stringify q res) w in
  throws (get_token JSON_stringify q res) w = false
  ∧ store_of w' = store_of w
  ∧ statusCode (resp w' res) = 400
  ∧ finished (resp w' res) = true.
Proof.
  intros Hguard w'. subst w'.
  assert (get_token JSON_stringify q res
          = (res_status res 400;; res_end res None)) as ->.
  { destruct q as [|s|]; simpl in *; try done. by rewrite Hguard. }
  split; [done|]. apply reject_400.
Qed.

(** ** The sweep *)

Lemma sweepStep_present now thr k e w :
  tokenRequests w !! k = Some e →
  ∃ w', sweepStep now thr k w = (Normal (), w')
    ∧ tokenRequests w'
      = (if bool_decide (now - createdAt e > thr)
         then delete k (tokenRequests w) else tokenRequests w)
    ∧ numTokenRequests w'
      = (if bool_decide (now - createdAt e > thr)
         then numTokenRequests w - 1 else numTokenRequests w)
    ∧ same_runtime w w'.
Proof.
  intros Hk. unfold sweepStep, same_runtime. js_unfold. rewrite Hk.
  case_bool_decide; [|by eexists].
  destruct (response e); simpl; by eexists.
Qed.

Lemma for_of_sweep now thr l : ∀ w,
  NoDup l →
  (∀ k, k ∈ l → is_Some (tokenRequests w !! k)) →
  ∃ w', for_of l (sweepStep now thr) w = (Normal (), w')
    ∧ (∀ k e, tokenRequests w' !! k = Some e ↔
              tokenRequests w !! k = Some e
              ∧ (k ∈ l → ¬ now - createdAt e > thr))
    ∧ drift w' = drift w
    ∧ same_runtime w w'.
Proof.
  induction l as [|k0 l IH]; intros w Hnd Hdom.
  - exists w. split; [done|]. split; [|done].
    intros k e. rewrite elem_of_nil. naive_solver.
  - apply NoDup_cons in Hnd as [Hk0 Hnd].
    destruct (Hdom k0) as [e0 He0]; [by left|].
    destruct (sweepStep_present now thr k0 e0 w He0)
      as (w1 & Hstep & Hmap1 & Hnum1 & Hrt1).
    destruct (IH w1 Hnd) as (w' & Hloop & Hmap & Hdrift & Hrt).
    { intros k Hk. rewrite Hmap1. case_bool_decide.
      - rewrite lookup_delete_ne by (intros ->; done). apply Hdom. by right.
      - apply Hdom. by right. }
    exists w'. split.
    { simpl. by rewrite (bind_normal _ _ w () w1). }
    split; [|split].
    + intros k e. rewrite Hmap, Hmap1, elem_of_cons.
      case_bool_decide as Hold.
      * rewrite lookup_delete_Some. split.
        -- intros [[Hne Hk] Hl]. split; [done|]. intros [->|?]; [done|auto].
        -- intros [Hk Hl]. assert (k0 ≠ k).
           { intros ->. rewrite He0 in Hk. injection Hk as ->.
             apply Hl; [by left|done]. }
           split; [done|]. intros ?. apply Hl. by right.
      * split.
        -- intros [Hk Hl]. split; [done|]. intros [->|?]; [|auto].
           rewrite He0 in Hk. by injection Hk as ->.
        -- intros [Hk Hl]. split; [done|]. intros ?. apply Hl. by right.
    + rewrite Hdrift. unfold drift. rewrite Hmap1, Hnum1.
      case_bool_decide; [|done].
      rewrite map_size_delete_Some by eauto.
      assert (size (tokenRequests w) ≠ 0%nat).
      { apply map_size_ne_0_lookup_2 with k0. eauto. }
      lia.
    + unfold same_runtime in *. naive_solver congruence.
Qed.

Lemma Object_keys_NoDup w : NoDup (Object_keys w).
Proof. apply NoDup_fst_map_to_list. Qed.

Lemma elem_of_Object_keys w k :
  k ∈ Object_keys w ↔ is_Some (tokenRequests w !! k).
Proof.
  unfold Object_keys. rewrite list_elem_of_fmap. split.
  - intros [[k' e] [-> Hin]]. apply elem_of_map_to_list in Hin. by eexists.
  - intros [e He]. exists (k, e). split; [done|].
    by apply elem_of_map_to_list.
Qed.

(** The sweep always completes; it keeps exactly the requests whose age
    does not exceed the threshold, keeps the counter in step with the keys
    it deletes, and never schedules a timer. *)
Lemma clearOldTokenRequests_spec thr w :
  ∃ w', clearOldTokenRequests thr w = (Normal (), w')
    ∧ (∀ k e, tokenRequests w' !! k = Some e ↔
              tokenRequests w !! k = Some e ∧ ¬ age w e > thr)
    ∧ drift w' = drift w
    ∧ tokenRequestClearerInterval w' = tokenRequestClearerInterval w
    ∧ intervals w' ⊆ intervals w
    ∧ nextIntervalId w' = nextIntervalId w
    ∧ clock w' = clock w
    ∧ clockReads w' = N.succ (clockReads w).
Proof.
  unfold clearOldTokenRequests, Date_now.
  set (w0 := set_clockReads (N.succ (clockReads w)) w).
  destruct (for_of_sweep (clock w (clockReads w)) thr (Object_keys w0) w0)
    as (w1 & Hloop & Hmap & Hdrift & Hti & Hiv & Hnext & Hclock & Hreads).
  { apply Object_keys_NoDup. }
  { intros k. by rewrite elem_of_Object_keys. }
  assert (∀ k e, tokenRequests w1 !! k = Some e ↔
                 tokenRequests w !! k = Some e ∧ ¬ age w e > thr) as Hmap'.
  { intros k e. rewrite Hmap. unfold age. split.
    - intros [Hk Hy]. split; [done|]. apply Hy.
      apply elem_of_Object_keys. eauto.
    - intros [Hk Hy]. done. }
  js_unfold. simpl. fold w0. rewrite Hloop.
  subst w0. unfold drift in *. simpl in *.
  destruct (tokenRequestClearerInterval w1) as [id|] eqn:Htimer;
    [case_bool_decide|];
    (eexists; split; [done|]; simpl; split; [exact Hmap'|];
     repeat split; try done; try congruence;
     rewrite ?Hiv; try apply delete_subseteq; try reflexivity).
Qed.

Lemma clearOldTokenRequests_normal thr w :
  clearOldTokenRequests thr w = (Normal (), exec (clearOldTokenRequests thr) w).
Proof.
  destruct (clearOldTokenRequests_spec thr w) as (w' & Hrun & _).
  unfold exec. by rewrite Hrun.
Qed.

Lemma clearOldTokenRequests_lookup thr w k e :
  tokenRequests (exec (clearOldTokenRequests thr) w) !! k = Some e ↔
  tokenRequests w !! k = Some e ∧ ¬ age w e > thr.
Proof.
  destruct (clearOldTokenRequests_spec thr w) as (w' & Hrun & Hmap & _).
  unfold exec. rewrite Hrun. apply Hmap.
Qed.

Lemma clearOldTokenRequests_subseteq thr w :
  tokenRequests (exec (clearOldTokenRequests thr) w) ⊆ tokenRequests w.
Proof.
  apply map_subseteq_spec. intros k e.
  rewrite clearOldTokenRequests_lookup. tauto.
Qed.

(** ** The mean age *)

Lemma calculateMeanTokenRequestLifetime_run w :
  calculateMeanTokenRequestLifetime w
  = (Normal (Math_round_div (totalAge w) (numTokenRequests w)),
     set_clockReads (N.succ (clockReads w)) w).
Proof. reflexivity. Qed.

Lemma meanThreshold_eq w :
  meanThreshold w = Math_round_div (totalAge w) (numTokenRequests w).
Proof. reflexivity. Qed.

Lemma forceClearOldTokenRequests_run w :
  forceClearOldTokenRequests w
  = clearOldTokenRequests (meanThreshold w)
      (set_clockReads (N.succ (clockReads w)) w).
Proof. reflexivity. Qed.

Lemma forceClearOldTokenRequests_normal w :
  forceClearOldTokenRequests w
  = (Normal (), exec forceClearOldTokenRequests w).
Proof.
  unfold exec. rewrite forceClearOldTokenRequests_run.
  by rewrite clearOldTokenRequests_normal.
Qed.

(** ** The capacity guard *)

Lemma evictIfFull_below w :
  numTokenRequests w < MAX_TOKEN_REQUESTS → evictIfFull w = (Normal (), w).
Proof.
  intros Hlt. unfold evictIfFull. js_unfold.
  rewrite bool_decide_eq_false_2 by lia. done.
Qed.

Lemma evictIfFull_spec w :
  ∃ w', evictIfFull w = (Normal (), w')
    ∧ tokenRequests w' ⊆ tokenRequests w
    ∧ drift w' = drift w
    ∧ tokenRequestClearerInterval w' = tokenRequestClearerInterval w
    ∧ intervals w' ⊆ intervals w
    ∧ clock w' = clock w.
Proof.
  unfold evictIfFull. js_unfold.
  case_bool_decide as Hfull; [|by exists w].
  destruct (clearOldTokenRequests_spec MAX_REQUEST_LIFETIME w)
    as (w1 & Hrun1 & Hmap1 & Hdrift1 & Hti1 & Hiv1 & _ & Hclock1 & _).
  rewrite Hrun1.
  assert (tokenRequests w1 ⊆ tokenRequests w) as Hsub1.
  { apply map_subseteq_spec. intros k e. rewrite Hmap1. tauto. }
  case_bool_decide as Hstill; [|by exists w1].
  rewrite forceClearOldTokenRequests_run.
  destruct (clearOldTokenRequests_spec (meanThreshold w1)
              (set_clockReads (N.succ (clockReads w1)) w1))
    as (w2 & Hrun2 & Hmap2 & Hdrift2 & Hti2 & Hiv2 & _ & Hclock2 & _).
  exists w2. split; [done|]. simpl in *. repeat split.
  - etrans; [|apply Hsub1]. apply map_subseteq_spec. intros k e.
    rewrite Hmap2. tauto.
  - by rewrite Hdrift2.
  - congruence.
  - by etrans.
  - congruence.
Qed.

Lemma evictIfFull_normal w : evictIfFull w = (Normal (), exec evictIfFull w).
Proof.
  destruct (evictIfFull_spec w) as (w' & Hrun & _).
  unfold exec. by rewrite Hrun.
Qed.

Lemma evictIfFull_subseteq w :
  tokenRequests (exec evictIfFull w) ⊆ tokenRequests w.
Proof.
  destruct (evictIfFull_spec w) as (w' & Hrun & Hsub & _).
  unfold exec. by rewrite Hrun.
Qed.

(** ** Creating, replaying and replacing *)

Section Register.

Variable JSON_stringify : AccessToken → string.

Lemma storeRequest_create s r t w :
  tokenRequests w !! s = None →
  storeRequest JSON_stringify s r t w
  = (Normal (),
     set_tokenRequests
       (insert s (mkTokenRequest s r (clock w (clockReads w)) t))
       (set_numTokenRequests (λ n, n + 1)
          (set_clockReads (N.succ (clockReads w)) w))).
Proof.
  intros Hs. unfold storeRequest, Date_now. js_unfold. simpl. by rewrite Hs.
Qed.

Lemma storeRequest_replay s h t w old stored :
  tokenRequests w !! s = Some old →
  result old = Some stored →
  storeRequest JSON_stringify s (Some h) t w
  = (Normal (),
     exec (res_status h 200;; res_write h (JSON_stringify stored))
          (set_clockReads (N.succ (clockReads w)) w)).
Proof.
  intros Hs Hres. unfold storeRequest, Date_now. js_unfold. simpl.
  rewrite Hs. destruct old as [? ? ? res]. simpl in Hres. by rewrite Hres.
Qed.

Lemma storeRequest_replace s r t w old :
  tokenRequests w !! s = Some old →
  result old = None ∨ r = None →
  storeRequest JSON_stringify s r t w
  = (Normal (),
     set_tokenRequests
       (insert s (mkTokenRequest s r (clock w (clockReads w)) t))
       (set_clockReads (N.succ (clockReads w)) w)).
Proof.
  intros Hs Hcase. unfold storeRequest, Date_now. js_unfold. simpl.
  rewrite Hs. destruct old as [? ? ? res]. simpl in Hcase.
  destruct Hcase as [-> | ->]; [done|]. by destruct res.
Qed.

Lemma storeRequest_frame s r t w :
  let w' := exec (storeRequest JSON_stringify s r t) w in
  tokenRequestClearerInterval w' = tokenRequestClearerInterval w
  ∧ intervals w' = intervals w
  ∧ clock w' = clock w.
Proof.
  unfold exec.
  destruct (tokenRequests w !! s) as [old|] eqn:Hs;
    [|by rewrite storeRequest_create].
  destruct (result old) as [stored|] eqn:Hres; [destruct r as [h|]|].
  - by rewrite (storeRequest_replay s h t w old stored).
  - rewrite (storeRequest_replace s None t w old); auto.
  - rewrite (storeRequest_replace s r t w old); auto.
Qed.

Lemma storeRequest_normal s r t w :
  storeRequest JSON_stringify s r t w
  = (Normal (), exec (storeRequest JSON_stringify s r t) w).
Proof.
  destruct (tokenRequests w !! s) as [old|] eqn:Hs.
  - destruct (result old) as [stored|] eqn:Hres.
    + destruct r as [h|].
      * unfold exec. by rewrite (storeRequest_replay s h t w old stored).
      * unfold exec. rewrite (storeRequest_replace s None t w old); auto.
    + unfold exec. rewrite (storeRequest_replace s r t w old); auto.
  - unfold exec. by rewrite storeRequest_create.
Qed.

Lemma ensureClearer_normal w :
  ensureClearer w = (Normal (), exec ensureClearer w).
Proof.
  unfold ensureClearer, exec, setInterval. js_unfold.
  by destruct (tokenRequestClearerInterval w).
Qed.

Lemma ensureClearer_frame w :
  let w' := exec ensureClearer w in
  tokenRequests w' = tokenRequests w
  ∧ numTokenRequests w' = numTokenRequests w
  ∧ heap w' = heap w
  ∧ clock w' = clock w
  ∧ clockReads w' = clockReads w.
Proof.
  unfold ensureClearer, exec, setInterval. js_unfold.
  by destruct (tokenRequestClearerInterval w).
Qed.

Lemma addTokenRequest_run s r t w :
  addTokenRequest JSON_stringify s r t w
  = (Normal (),
     exec ensureClearer
       (exec (storeRequest JSON_stringify s r t) (exec evictIfFull w))).
Proof.
  unfold addTokenRequest.
  rewrite (bind_normal _ _ w () (exec evictIfFull w))
    by apply evictIfFull_normal.
  rewrite (bind_normal _ _ _ ()
             (exec (storeRequest JSON_stringify s r t) (exec evictIfFull w)))
    by apply storeRequest_normal.
  apply ensureClearer_normal.
Qed.

(** [addTokenRequest] never throws. *)
Lemma addTokenRequest_normal s r t w :
  throws (addTokenRequest JSON_stringify s r t) w = false.
Proof. unfold throws. by rewrite addTokenRequest_run. Qed.

Lemma exec_addTokenRequest s r t w :
  exec (addTokenRequest JSON_stringify s r t) w
  = exec ensureClearer
      (exec (storeRequest JSON_stringify s r t) (exec evictIfFull w)).
Proof. unfold exec at 1. by rewrite addTokenRequest_run. Qed.

End Register.

(** ** The replace path and [createdAt] *)

(** C4, as stated, fails: a second poll for a token whose first poll is
    still waiting replaces the entry, and the entry created at time 0 then
    carries the time of the second call, 5000. *)
Lemma replace_overwrites_createdAt :
  let w := exec (get_token sample_stringify (QString state_a) 1%N)
                (initial (ticking 5000)) in
  let w' := exec (get_token sample_stringify (QString state_a) 2%N) w in
  tokenRequests w !! state_a
  = Some (mkTokenRequest state_a (Some 1%N) 0 None)
  ∧ tokenRequests w' !! state_a
    = Some (mkTokenRequest state_a (Some 2%N) 5000 None).
Proof. vm_compute. done. Qed.

(** C4, amended.  On the replace path (the entry is still there when line
    99 is reached, and its result is unset or the call brings no waiter)
    the entry is overwritten by the request built at line 92, whose
    [createdAt] is the reading of [Date.now()] taken at line 95: the
    creation time is refreshed. *)
Theorem replace_refreshes_createdAt JSON_stringify s r t w old :
  let w1 := exec evictIfFull w in
  tokenRequests w1 !! s = Some old →
  result old = None ∨ r = None →
  tokenRequests (exec (addTokenRequest JSON_stringify s r t) w) !! s
  = Some (mkTokenRequest s r (clock w1 (clockReads w1)) t).
Proof.
  intros w1 Hold Hcase. rewrite exec_addTokenRequest. fold w1.
  destruct (ensureClearer_frame (exec (storeRequest JSON_stringify s r t) w1))
    as (-> & _).
  unfold exec at 1. rewrite (storeRequest_replace _ s r t w1 old) by done.
  simpl. apply lookup_insert_eq.
Qed.

Lemma replace_refreshes_createdAt_witness :
  let w := exec (get_token sample_stringify (QString state_a) 1%N)
                (initial (ticking 5000)) in
  tokenRequests (exec (addTokenRequest sample_stringify state_a (Some 2%N) None) w)
    !! state_a
  = Some (mkTokenRequest state_a (Some 2%N) 5000 None).
Proof.
  apply (replace_refreshes_createdAt sample_stringify state_a (Some 2%N) None
           (exec (get_token sample_stringify (QString state_a) 1%N)
                 (initial (ticking 5000)))
           (mkTokenRequest state_a (Some 1%N) 0 None)).
  - vm_compute. reflexivity.
  - left. reflexivity.
Defined.

(** ** A saturated store, run *)

(** What the code does on [saturated_mixed]: the state before the next
    call, the two passes of the guard, a poll for the token whose result
    is held, and a second poll for [key 0]. *)
Lemma saturated_mixed_runs :
  let w := saturated_mixed in
  let w1 := exec (clearOldTokenRequests MAX_REQUEST_LIFETIME) w in
  let w2 := exec forceClearOldTokenRequests w1 in
  let wa := exec (addTokenRequest sample_stringify state_a (Some 20000%N) None) w in
  let wk := exec (get_token sample_stringify (QString (key 0)) 20000%N) w in
  numTokenRequests w = MAX_TOKEN_REQUESTS
  ∧ Z.of_nat (size (tokenRequests w)) = 10000
  ∧ tokenRequests w !! state_a
    = Some (mkTokenRequest state_a None 0 (Some sample_token))
  ∧ age w (mkTokenRequest state_a None 0 (Some sample_token)) = 500000
  ∧ tokenRequests w !! key 0 = Some (mkTokenRequest (key 0) (Some 0%N) 0 None)
  ∧ resp w 0%N = fresh_response
  ∧ Z.of_nat (size (tokenRequests w1)) = 10000
  ∧ meanThreshold w1 = 100
  ∧ tokenRequests wa !! state_a
    = Some (mkTokenRequest state_a (Some 20000%N) 500000 None)
  ∧ resp wa 20000%N = fresh_response
  ∧ resp wk 0%N = mkResponse 408 [] [] true true
  ∧ waiters wk (key 0) = [20000%N]
  ∧ Z.of_nat (size (tokenRequests w2)) = 9998.
Proof. vm_compute. repeat split; reflexivity. Qed.

(** ** Replaying a stored result *)

Lemma write_200 h chunk v :
  let v' := exec (res_status h 200;; res_write h chunk) v in
  store_of v' = store_of v
  ∧ statusCode (resp v' h) = 200
  ∧ (finished (resp v h) = false →
     body (resp v' h) = body (resp v h) ++ [chunk]
     ∧ finished (resp v' h) = false).
Proof.
  unfold res_status, res_write, update_response, resp. js_unfold. simpl.
  rewrite !lookup_insert_eq. simpl.
  destruct (finished (default fresh_response (heap v !! h))); by simpl.
Qed.

(** C8, as stated, fails: in a saturated store the capacity guard runs
    before the entry is looked up.  Here the result held for [state_a] is
    500000 ms old, within the lifetime of ten minutes, and all but one of
    the other entries are new; the mean age is 100 ms, the mean-age pass
    of the guard evicts the held result, and the poll is stored as a fresh
    waiting entry to which nothing is written. *)
Lemma full_store_drops_stored_result :
  let w := saturated_mixed in
  let w' := exec (addTokenRequest sample_stringify state_a (Some 20000%N) None) w in
  tokenRequests w !! state_a
  = Some (mkTokenRequest state_a None 0 (Some sample_token))
  ∧ numTokenRequests w = MAX_TOKEN_REQUESTS
  ∧ age w (mkTokenRequest state_a None 0 (Some sample_token)) = 500000
  ∧ tokenRequests w' !! state_a
    = Some (mkTokenRequest state_a (Some 20000%N) 500000 None)
  ∧ resp w' 20000%N = fresh_response.
Proof.
  pose proof saturated_mixed_runs as H. cbv zeta in H |- *.
  destruct H as (Hnum & _ & Hheld & Hage & _ & _ & _ & _ & Hnew & Hresp & _).
  exact (conj Hheld (conj Hnum (conj Hage (conj Hnew Hresp)))).
Qed.

(** C8, amended.  When the entry of the token is still there with its
    result set once the capacity guard has run (always so while the counter
    is below the ceiling), registering a new waiter sets its status to 200
    and writes the serialization of exactly the stored result to it, and
    leaves the map and the counter as the guard left them: the entry stays
    in place with its result.  The body is written with [write] and [end]
    is not called (line 104): a response that was open is still open
    afterwards. *)
Theorem replay_to_new_waiter JSON_stringify s h t w old stored :
  let w1 := exec evictIfFull w in
  tokenRequests w1 !! s = Some old →
  result old = Some stored →
  let w' := exec (addTokenRequest JSON_stringify s (Some h) t) w in
  throws (addTokenRequest JSON_stringify s (Some h) t) w = false
  ∧ tokenRequests w' = tokenRequests w1
  ∧ tokenRequests w' !! s = Some old
  ∧ numTokenRequests w' = numTokenRequests w1
  ∧ statusCode (resp w' h) = 200
  ∧ (finished (resp w1 h) = false →
     body (resp w' h) = body (resp w1 h) ++ [JSON_stringify stored]
     ∧ finished (resp w' h) = false).
Proof.
  intros w1 Hold Hres w'. subst w'.
  split; [apply addTokenRequest_normal|].
  rewrite exec_addTokenRequest. fold w1.
  set (w2 := exec (storeRequest JSON_stringify s (Some h) t) w1).
  destruct (ensureClearer_frame w2) as (Hmap & Hnum & Hheap & _).
  assert (resp (exec ensureClearer w2) h = resp w2 h) as Hresp.
  { unfold resp. by rewrite Hheap. }
  rewrite Hmap, Hnum, Hresp. clear Hmap Hnum Hheap Hresp.
  assert (w2 = exec (res_status h 200;; res_write h (JSON_stringify stored))
                    (set_clockReads (N.succ (clockReads w1)) w1)) as ->.
  { unfold w2, exec at 1.
    by rewrite (storeRequest_replay _ s h t w1 old stored). }
  destruct (write_200 h (JSON_stringify stored)
              (set_clockReads (N.succ (clockReads w1)) w1))
    as (_ & Hstatus & Hbody).
  split_and!; [done..|].
  intros Hopen. by destruct (Hbody Hopen).
Qed.

Lemma replay_to_new_waiter_witness :
  let w := exec (addTokenRequest sample_stringify state_a None (Some sample_token))
                (initial (frozen 0)) in
  let w' := exec (addTokenRequest sample_stringify state_a (Some 1%N) None) w in
  throws (addTokenRequest sample_stringify state_a (Some 1%N) None) w = false
  ∧ tokenRequests w' = tokenRequests w
  ∧ tokenRequests w' !! state_a
    = Some (mkTokenRequest state_a None 0 (Some sample_token))
  ∧ numTokenRequests w' = numTokenRequests w
  ∧ statusCode (resp w' 1%N) = 200
  ∧ (finished (resp w 1%N) = false →
     body (resp w' 1%N)
     = body (resp w 1%N) ++ [sample_stringify sample_token]
     ∧ finished (resp w' 1%N) = false).
Proof.
  apply (replay_to_new_waiter sample_stringify state_a 1%N None
           (exec (addTokenRequest sample_stringify state_a None (Some sample_token))
                 (initial (frozen 0)))
           (mkTokenRequest state_a None 0 (Some sample_token)) sample_token).
  - vm_compute. reflexivity.
  - reflexivity.
Defined.

(** ** Eviction at the capacity ceiling *)

Lemma evictIfFull_full w :
  numTokenRequests w >= MAX_TOKEN_REQUESTS →
  exec evictIfFull w
  = let w1 := exec (clearOldTokenRequests MAX_REQUEST_LIFETIME) w in
    if bool_decide (numTokenRequests w1 >= MAX_TOKEN_REQUESTS)
    then exec forceClearOldTokenRequests w1 else w1.
Proof.
  intros Hfull. unfold evictIfFull, exec at 1. js_unfold.
  rewrite bool_decide_eq_true_2 by done.
  rewrite clearOldTokenRequests_normal. simpl.
  by case_bool_decide.
Qed.

Lemma forceClearOldTokenRequests_lookup w k e :
  tokenRequests (exec forceClearOldTokenRequests w) !! k = Some e ↔
  tokenRequests w !! k = Some e
  ∧ age (set_clockReads (N.succ (clockReads w)) w) e ≤ meanThreshold w.
Proof.
  unfold exec. rewrite forceClearOldTokenRequests_run.
  fold (exec (clearOldTokenRequests (meanThreshold w))
             (set_clockReads (N.succ (clockReads w)) w)).
  rewrite clearOldTokenRequests_lookup. simpl. split; intros [? ?]; split;
    try done; lia.
Qed.






(** ** The mean-age pass *)

(** C7, as stated, fails: with two entries 500000 ms old and 9998 entries
    just made, nothing is older than the ceiling (the first pass keeps
    all 10000 keys), the mean age is 100 ms, and the second pass purges
    the two old entries: two of 10000, far from half. *)
Lemma skewed_ages_purge_two :
  let w := saturated_mixed in
  let w1 := exec (clearOldTokenRequests MAX_REQUEST_LIFETIME) w in
  let w2 := exec forceClearOldTokenRequests w1 in
  numTokenRequests w = MAX_TOKEN_REQUESTS
  ∧ Z.of_nat (size (tokenRequests w)) = 10000
  ∧ Z.of_nat (size (tokenRequests w1)) = 10000
  ∧ meanThreshold w1 = 100
  ∧ Z.of_nat (size (tokenRequests w2)) = 9998.
Proof.
  pose proof saturated_mixed_runs as H. cbv zeta in H |- *.
  destruct H as (Hnum & Hsize & _ & _ & _ & _ & Hpass1 & Hmean & _ & _ & _ & _
                 & Hpass2).
  exact (conj Hnum (conj Hsize (conj Hpass1 (conj Hmean Hpass2)))).
Qed.

(** C7, amended.  The second pass keeps exactly the entries whose age, as
    the pass measures it, is at most the threshold
    [Math.round(sum of ages / numTokenRequests)], and purges exactly the
    entries older than that; how many these are depends on how the ages are
    spread, and it may be none. *)
Theorem mean_pass_purges_older_than_mean w k e :
  (tokenRequests (exec forceClearOldTokenRequests w) !! k = Some e ↔
   tokenRequests w !! k = Some e
   ∧ age (set_clockReads (N.succ (clockReads w)) w) e ≤ meanThreshold w)
  ∧ meanThreshold w = Math_round_div (totalAge w) (numTokenRequests w)
  ∧ throws forceClearOldTokenRequests w = false.
Proof.
  split; [apply forceClearOldTokenRequests_lookup|]. split; [done|].
  unfold throws. by rewrite forceClearOldTokenRequests_normal.
Qed.

(** ** The counter and the keys *)

Lemma clearOldTokenRequests_drift thr w :
  drift (exec (clearOldTokenRequests thr) w) = drift w.
Proof.
  destruct (clearOldTokenRequests_spec thr w) as (w' & Hrun & _ & Hdrift & _).
  unfold exec. by rewrite Hrun.
Qed.

Lemma storeRequest_drift JSON_stringify s r t w :
  drift (exec (storeRequest JSON_stringify s r t) w) = drift w.
Proof.
  unfold exec, drift.
  destruct (tokenRequests w !! s) as [old|] eqn:Hs.
  - destruct (result old) as [stored|] eqn:Hres; [destruct r as [h|]|].
    + by rewrite (storeRequest_replay _ s h t w old stored).
    + rewrite (storeRequest_replace _ s None t w old) by auto.
      simpl. by rewrite map_size_insert_Some by eauto.
    + rewrite (storeRequest_replace _ s r t w old) by auto.
      simpl. by rewrite map_size_insert_Some by eauto.
  - rewrite storeRequest_create by done. simpl.
    rewrite map_size_insert_None by done. lia.
Qed.

(** Insertion, replacement and both sweeps keep the counter in step with
    the keys. *)
Lemma addTokenRequest_drift JSON_stringify s r t w :
  drift (exec (addTokenRequest JSON_stringify s r t) w) = drift w.
Proof.
  rewrite exec_addTokenRequest.
  destruct (ensureClearer_frame
              (exec (storeRequest JSON_stringify s r t) (exec evictIfFull w)))
    as (Hmap & Hnum & _).
  unfold drift at 1. rewrite Hmap, Hnum. fold (drift
    (exec (storeRequest JSON_stringify s r t) (exec evictIfFull w))).
  rewrite storeRequest_drift.
  destruct (evictIfFull_spec w) as (w' & Hrun & _ & Hdrift & _).
  unfold exec. by rewrite Hrun.
Qed.

(** C10.  The delivery path of [handleAccessToken] deletes the key at
    line 127 and leaves [numTokenRequests] as it was: after a delivery to
    an open waiter the counter exceeds the number of keys by one more than
    before. *)
Theorem delivery_keeps_counter JSON_stringify s token w request h :
  tokenRequests w !! s = Some request →
  response request = Some h →
  headersSent (resp w h) = false →
  let w' := exec (handleAccessToken JSON_stringify s token) w in
  throws (handleAccessToken JSON_stringify s token) w = false
  ∧ tokenRequests w' = delete s (tokenRequests w)
  ∧ numTokenRequests w' = numTokenRequests w
  ∧ drift w' = drift w + 1.
Proof.
  intros Hs Hh Hsent.
  assert (handleAccessToken JSON_stringify s token w
          = (Normal (),
             set_tokenRequests (delete s)
               (exec (res_status h 200;;
                      res_header h "Content-type" "application/json";;
                      res_end h (Some (JSON_stringify token))) w))) as Hrun.
  { unfold handleAccessToken, res_status, res_header, res_end,
      update_response, resp in *.
    js_unfold. rewrite Hs, Hh. simpl. rewrite lookup_insert_eq. simpl.
    by rewrite Hsent. }
  unfold throws, exec at 1 2 3, drift. rewrite Hrun. simpl.
  assert (tokenRequests
            (exec (res_status h 200;;
                   res_header h "Content-type" "application/json";;
                   res_end h (Some (JSON_stringify token))) w)
          = tokenRequests w
          ∧ numTokenRequests
            (exec (res_status h 200;;
                   res_header h "Content-type" "application/json";;
                   res_end h (Some (JSON_stringify token))) w)
          = numTokenRequests w) as [-> ->].
  { unfold res_status, res_header, res_end, update_response, resp in *.
    js_unfold. simpl. rewrite lookup_insert_eq. simpl. by rewrite Hsent. }
  repeat split; try done.
  rewrite map_size_delete_Some by eauto.
  assert (size (tokenRequests w) ≠ 0%nat).
  { apply map_size_ne_0_lookup_2 with s. eauto. }
  lia.
Qed.

Lemma delivery_keeps_counter_witness :
  let w := exec (get_token sample_stringify (QString state_a) 1%N)
                (initial (frozen 0)) in
  let w' := exec (handleAccessToken sample_stringify state_a sample_token) w in
  (numTokenRequests w = 1 ∧ size (tokenRequests w) = 1%nat)
  ∧ throws (handleAccessToken sample_stringify state_a sample_token) w = false
  ∧ tokenRequests w' = delete state_a (tokenRequests w)
  ∧ numTokenRequests w' = numTokenRequests w
  ∧ drift w' = drift w + 1.
Proof.
  split; [by vm_compute|].
  apply (delivery_keeps_counter sample_stringify state_a sample_token
           (exec (get_token sample_stringify (QString state_a) 1%N)
                 (initial (frozen 0)))
           (mkTokenRequest state_a (Some 1%N) 0 None) 1%N).
  - vm_compute. reflexivity.
  - reflexivity.
  - vm_compute. reflexivity.
Defined.

(** ** The life of the sweep timer *)

(** Once [tokenRequestClearerInterval] holds a timer identifier, no call of
    [addTokenRequest] schedules a timer or changes the variable. *)
Lemma addTokenRequest_keeps_timer JSON_stringify s r t w id :
  tokenRequestClearerInterval w = Some id →
  let w' := exec (addTokenRequest JSON_stringify s r t) w in
  tokenRequestClearerInterval w' = Some id
  ∧ intervals w' ⊆ intervals w.
Proof.
  intros Hid. cbv zeta. rewrite exec_addTokenRequest.
  destruct (evictIfFull_spec w) as (w1 & Hrun & _ & _ & Hti & Hiv & _).
  assert (exec evictIfFull w = w1) as -> by (unfold exec; by rewrite Hrun).
  destruct (storeRequest_frame JSON_stringify s r t w1) as (Hti2 & Hiv2 & _).
  set (w2 := exec (storeRequest JSON_stringify s r t) w1) in *.
  unfold ensureClearer, exec at 1 2. js_unfold.
  rewrite Hti2, Hti, Hid. simpl. rewrite Hti2, Hti, Hid, Hiv2. done.
Qed.

(** C5.  The sweep is not restarted.  A poll at time 0 starts the timer;
    when it fires at time 700000 the sweep evicts the entry, finds the
    counter at 0 and cancels the timer, but line 62 leaves the identifier
    in [tokenRequestClearerInterval].  The next poll therefore schedules
    nothing: its entry is live, no timer is, and no firing of any timer
    ever sweeps it. *)
Theorem sweep_not_restarted JSON_stringify :
  let w1 := exec (get_token JSON_stringify (QString state_a) 1%N)
                 (initial (ticking 700000)) in
  let w2 := exec (intervalFires 0) w1 in
  let w3 := exec (get_token JSON_stringify (QString state_b) 2%N) w2 in
  intervals w1 = {[0%nat := MAX_REQUEST_LIFETIME + 1000]}
  ∧ tokenRequests w2 = ∅
  ∧ numTokenRequests w2 = 0
  ∧ intervals w2 = ∅
  ∧ tokenRequestClearerInterval w2 = Some 0%nat
  ∧ tokenRequests w3 !! state_b
    = Some (mkTokenRequest state_b (Some 2%N) 1400000 None)
  ∧ intervals w3 = ∅
  ∧ ∀ id, intervalFires id w3 = (Normal (), w3).
Proof.
  vm_compute. repeat split; done.
Qed.

(** ** A callback that finds no entry *)

(** C1.  A callback for a token that has no entry does not store the
    result: [handleAccessToken] throws at [maybeTokenRequest.response], the
    promise of [/login] is rejected, the caller is told the provider's
    answer could not be parsed, and the three module variables are left as
    they were.  A poll that follows finds nothing: it is stored as a
    waiting entry without a result and no response object is written. *)
Theorem login_without_entry_loses_result JSON_stringify state token res poll w :
  tokenRequests w !! state = None →
  numTokenRequests w < MAX_TOKEN_REQUESTS →
  String_match state = true →
  let w' := exec (login_then JSON_stringify state token res) w in
  let w'' := exec (get_token JSON_stringify (QString state) poll) w' in
  store_of w' = store_of w
  ∧ resp w' res =
      resp (exec (res_end res (Some "Couldn't parse response from Flowdock :/")) w)
           res
  ∧ tokenRequests w'' !! state
    = Some (mkTokenRequest state (Some poll) (clock w (clockReads w)) None)
  ∧ heap w'' = heap w'.
Proof.
  intros Habsent Hbelow Hshape w' w''.
  assert (w' = exec (res_end res
                       (Some "Couldn't parse response from Flowdock :/")) w)
    as Hw'.
  { subst w'. unfold login_then, exec, try_catch.
    rewrite (bind_thrown _ _ w TypeError w)
      by by apply handleAccessToken_absent.
    done. }
  split; [by rewrite Hw'|]. split; [by rewrite Hw'|].
  subst w''. rewrite get_token_accepted by done.
  rewrite exec_addTokenRequest.
  assert (exec evictIfFull w' = w') as ->.
  { unfold exec at 1. rewrite evictIfFull_below; [done|by rewrite Hw']. }
  destruct (ensureClearer_frame
              (exec (storeRequest JSON_stringify state (Some poll) None) w'))
    as (-> & _ & -> & _).
  unfold exec at 1 2. rewrite storeRequest_create by (by rewrite Hw').
  simpl. rewrite lookup_insert_eq. by rewrite Hw'.
Qed.

Lemma login_without_entry_loses_result_witness :
  let w := initial (frozen 0) in
  let w' := exec (login_then sample_stringify state_a sample_token 1%N) w in
  let w'' := exec (get_token sample_stringify (QString state_a) 2%N) w' in
  store_of w' = store_of w
  ∧ resp w' 1%N =
      resp (exec (res_end 1%N (Some "Couldn't parse response from Flowdock :/")) w)
           1%N
  ∧ tokenRequests w'' !! state_a
    = Some (mkTokenRequest state_a (Some 2%N) 0 None)
  ∧ heap w'' = heap w'.
Proof.
  apply (login_without_entry_loses_result sample_stringify state_a
           sample_token 1%N 2%N (initial (frozen 0))).
  - reflexivity.
  - reflexivity.
  - reflexivity.
Defined.

(** ** Responses the store does not hold *)

Lemma attached_mono w w' h :
  tokenRequests w' ⊆ tokenRequests w → attached w' h → attached w h.
Proof.
  intros Hsub (k & e & Hk & He). exists k, e. split; [|done].
  by eapply lookup_weaken.
Qed.

Lemma exec_bind {A B} (m : JS A) (f : A → JS B) w :
  exec (m ≫= f) w
  = match m w with
    | (Normal a, w') => exec (f a) w'
    | (Thrown _, w') => w'
    end.
Proof. unfold exec, mbind, JS_bind. by destruct (m w) as [[a|e] w']. Qed.

Lemma silent_bind {A B} h (m : JS A) (k : A → JS B) :
  silent h m → (∀ a, silent h (k a)) → silent h (m ≫= k).
Proof.
  intros Hm Hk w Hw. rewrite exec_bind.
  destruct (Hm w Hw) as [Hheap Hatt]. unfold exec in Hheap, Hatt.
  destruct (m w) as [[a|e] w1]; simpl in *; [|done].
  destruct (Hk a w1 Hatt) as [Hheap2 Hatt2]. split; [|done].
  by rewrite Hheap2.
Qed.

Lemma silent_ret {A} h (a : A) : silent h (mret a).
Proof. by intros w Hw. Qed.

Lemma silent_throw {A} h e : silent h (throw e : JS A).
Proof. by intros w Hw. Qed.

Lemma silent_gets {A} h (f : World → A) : silent h (gets f).
Proof. by intros w Hw. Qed.

Lemma silent_Date_now h : silent h Date_now.
Proof. by intros w Hw. Qed.

Lemma silent_try_catch {A} h (m : JS A) (handler : Exn → JS A) :
  silent h m → (∀ e, silent h (handler e)) → silent h (try_catch m handler).
Proof.
  intros Hm Hk w Hw. unfold exec, try_catch.
  destruct (Hm w Hw) as [Hheap Hatt]. unfold exec in Hheap, Hatt.
  destruct (m w) as [[a|e] w1]; simpl in *; [done|].
  destruct (Hk e w1 Hatt) as [Hheap2 Hatt2]. split; [|done].
  unfold exec in Hheap2. by rewrite Hheap2.
Qed.

(** A step that depends on what the map holds in the current world. *)
Lemma silent_lookup {B} h s (k : option TokenRequest → JS B) :
  silent h (k None) →
  (∀ e, (∀ r, response e = Some r → r ≠ h) → silent h (k (Some e))) →
  silent h (gets (λ w, tokenRequests w !! s) ≫= k).
Proof.
  intros Hnone Hsome w Hw. rewrite exec_bind. unfold gets.
  destruct (tokenRequests w !! s) as [e|] eqn:Hs; [|by apply Hnone].
  apply Hsome; [|done]. intros r Hr ->. apply Hw. by exists s, e.
Qed.

Lemma silent_update h r f :
  r ≠ h → silent h (update_response r f).
Proof.
  intros Hne w Hw. unfold update_response, exec, modify. simpl.
  split; [by rewrite lookup_insert_ne|done].
Qed.

Lemma silent_shrink h (f : gmap string TokenRequest → gmap string TokenRequest) :
  (∀ m, f m ⊆ m) → silent h (modify (set_tokenRequests f)).
Proof.
  intros Hf w Hw. unfold exec, modify. simpl. split; [done|].
  intros Hatt. apply Hw. eapply attached_mono; [|done]. apply Hf.
Qed.

Lemma silent_insert h s e :
  response e ≠ Some h → silent h (modify (set_tokenRequests (insert s e))).
Proof.
  intros He w Hw. unfold exec, modify. simpl. split; [done|].
  intros (k & e' & Hk & He'). simpl in Hk.
  destruct (decide (s = k)) as [->|Hne].
  - rewrite lookup_insert_eq in Hk. by injection Hk as ->.
  - rewrite lookup_insert_ne in Hk by done. apply Hw. by exists k, e'.
Qed.

Lemma silent_frame h (f : World → World) :
  (∀ w, tokenRequests (f w) = tokenRequests w ∧ heap (f w) = heap w) →
  silent h (modify f).
Proof.
  intros Hf w Hw. unfold exec, modify. simpl.
  destruct (Hf w) as [Hmap Hheap]. rewrite Hheap. split; [done|].
  intros (k & e & Hk & He). apply Hw. exists k, e. by rewrite <- Hmap.
Qed.

Lemma for_of_silent {A} h (l : list A) (body : A → JS unit) :
  (∀ x, silent h (body x)) → silent h (for_of l body).
Proof.
  intros Hbody. induction l as [|x l IH]; simpl.
  - apply silent_ret.
  - apply silent_bind; [apply Hbody|]. intros _. apply IH.
Qed.

Lemma sweepStep_silent now thr k h : silent h (sweepStep now thr k).
Proof.
  unfold sweepStep. apply silent_lookup; [apply silent_throw|].
  intros e Hne. case_bool_decide; [|apply silent_ret].
  apply silent_bind; [apply silent_shrink; intros m; apply delete_subseteq|].
  intros _. apply silent_bind; [by apply silent_frame|]. intros _.
  destruct (response e) as [r|]; [|apply silent_ret].
  apply silent_bind; [apply silent_update; auto|].
  intros _. apply silent_update; auto.
Qed.

Lemma clearOldTokenRequests_silent thr h :
  silent h (clearOldTokenRequests thr).
Proof.
  unfold clearOldTokenRequests.
  apply silent_bind; [apply silent_Date_now|]. intros now.
  apply silent_bind; [apply silent_gets|]. intros keys.
  apply silent_bind.
  { apply for_of_silent. intros k. apply sweepStep_silent. }
  intros _. apply silent_bind; [apply silent_gets|]. intros n.
  apply silent_bind; [apply silent_gets|]. intros [id|].
  - case_bool_decide; [|apply silent_ret].
    unfold clearInterval. by apply silent_frame.
  - apply silent_ret.
Qed.

Lemma evictIfFull_silent h : silent h evictIfFull.
Proof.
  unfold evictIfFull.
  apply silent_bind; [apply silent_gets|]. intros n.
  case_bool_decide; [|apply silent_ret].
  apply silent_bind; [apply clearOldTokenRequests_silent|]. intros _.
  apply silent_bind; [apply silent_gets|]. intros n'.
  case_bool_decide; [|apply silent_ret].
  unfold forceClearOldTokenRequests, calculateMeanTokenRequestLifetime.
  apply silent_bind; [|intros thr; apply clearOldTokenRequests_silent].
  apply silent_bind; [apply silent_Date_now|]. intros now.
  apply silent_bind; [apply silent_gets|]. intros keys.
  apply silent_bind; [apply silent_gets|]. intros total.
  apply silent_bind; [apply silent_gets|]. intros n''.
  apply silent_ret.
Qed.

Section Silence.

Variable JSON_stringify : AccessToken → string.

Lemma storeRequest_silent h s r t :
  r ≠ Some h → silent h (storeRequest JSON_stringify s r t).
Proof.
  intros Hr. unfold storeRequest.
  apply silent_bind; [apply silent_Date_now|]. intros now.
  apply silent_bind; [apply silent_gets|]. intros [[? ? ? stored]|].
  - destruct stored as [stored|], r as [r|];
      try (by apply silent_insert).
    assert (r ≠ h) by congruence.
    apply silent_bind; [by apply silent_update|].
    intros _. by apply silent_update.
  - apply silent_bind; [by apply silent_frame|]. intros _.
    by apply silent_insert.
Qed.

Lemma ensureClearer_silent h : silent h ensureClearer.
Proof.
  unfold ensureClearer.
  apply silent_bind; [apply silent_gets|]. intros [id|]; [apply silent_ret|].
  apply silent_bind; [by intros w Hw|]. intros id. by apply silent_frame.
Qed.

Lemma addTokenRequest_silent h s r t :
  r ≠ Some h → silent h (addTokenRequest JSON_stringify s r t).
Proof.
  intros Hr. unfold addTokenRequest.
  apply silent_bind; [apply evictIfFull_silent|]. intros _.
  apply silent_bind; [by apply storeRequest_silent|]. intros _.
  apply ensureClearer_silent.
Qed.

Lemma handleAccessToken_silent h s token :
  silent h (handleAccessToken JSON_stringify s token).
Proof.
  unfold handleAccessToken. apply silent_lookup; [apply silent_throw|].
  intros e Hne. destruct (response e) as [r|];
    [|by apply addTokenRequest_silent].
  assert (r ≠ h) by auto.
  apply silent_try_catch; [|intros _; by apply addTokenRequest_silent].
  apply silent_bind; [by apply silent_update|]. intros _.
  apply silent_bind.
  { unfold res_header. apply silent_bind; [apply silent_gets|].
    intros [|]; [apply silent_throw|by apply silent_update]. }
  intros _. apply silent_bind; [by apply silent_update|]. intros _.
  apply silent_shrink. intros m. apply delete_subseteq.
Qed.

Lemma run_silent h op : ¬ passes op h → silent h (run JSON_stringify op).
Proof.
  destruct op as [s r t|s token|thr|id]; simpl; intros Hop.
  - apply addTokenRequest_silent. destruct r; [congruence|done].
  - apply handleAccessToken_silent.
  - apply clearOldTokenRequests_silent.
  - unfold intervalFires. apply silent_bind; [apply silent_gets|].
    intros [?|]; [apply clearOldTokenRequests_silent|apply silent_ret].
Qed.

(** No sequence of store calls answers a response that no entry holds,
    unless one of the calls registers it again. *)
Lemma run_all_silent h ops : ∀ w,
  ¬ attached w h →
  Forall (λ op, ¬ passes op h) ops →
  resp (run_all JSON_stringify ops w) h = resp w h
  ∧ ¬ attached (run_all JSON_stringify ops w) h.
Proof.
  induction ops as [|op ops IH]; intros w Hw Hops; [done|].
  apply Forall_cons in Hops as [Hop Hops].
  destruct (run_silent h op Hop w Hw) as [Hheap Hatt].
  destruct (IH (exec (run JSON_stringify op) w) Hatt Hops) as [Hresp Hatt'].
  simpl. split; [|done]. rewrite Hresp. unfold resp. by rewrite Hheap.
Qed.

End Silence.

(** ** One waiter per entry, and what becomes of the first *)

(** C9, as stated, fails: at the ceiling the first waiter does get a
    response from the store.  The first poll for [key 0] is 500000 ms old
    and nearly all other entries are new; when a second waiter is
    registered for [key 0] the mean-age pass evicts the first entry and
    answers its waiter, handle 0, with a 408 before the second waiter is
    stored. *)
Lemma full_store_answers_first_waiter :
  let w := saturated_mixed in
  let w' := exec (get_token sample_stringify (QString (key 0)) 20000%N) w in
  tokenRequests w !! key 0 = Some (mkTokenRequest (key 0) (Some 0%N) 0 None)
  ∧ numTokenRequests w = MAX_TOKEN_REQUESTS
  ∧ resp w 0%N = fresh_response
  ∧ resp w' 0%N = mkResponse 408 [] [] true true
  ∧ waiters w' (key 0) = [20000%N].
Proof.
  pose proof saturated_mixed_runs as H. cbv zeta in H |- *.
  destruct H as (Hnum & _ & _ & _ & Hfirst & Hfresh & _ & _ & _ & _ & H408
                 & Hw & _).
  exact (conj Hfirst (conj Hnum (conj Hfresh (conj H408 Hw)))).
Qed.

(** C9, amended.  An entry has room for one response handle.  When a
    second waiter is registered for a token whose entry is still waiting
    (no result, a first waiter attached) once the capacity guard has run,
    the call completes, the entry afterwards holds the second waiter and
    only it, and lines 92-116 write to no response object: the heap is as
    the guard left it, so the first waiter is dropped without an answer
    from the registration.  If no other entry holds the first waiter, no
    later call of the store or firing of the timer writes to it either,
    unless it is registered again.  What the store may have sent it is the
    408 of the sweep that the guard runs at the head of the call. *)
Theorem second_waiter_discards_first JSON_stringify s h1 h2 w old :
  let w1 := exec evictIfFull w in
  tokenRequests w1 !! s = Some old →
  response old = Some h1 →
  result old = None →
  let w' := exec (addTokenRequest JSON_stringify s (Some h2) None) w in
  throws (addTokenRequest JSON_stringify s (Some h2) None) w = false
  ∧ waiters w1 s = [h1]
  ∧ waiters w' s = [h2]
  ∧ heap w' = heap w1
  ∧ (h1 ≠ h2 →
     (∀ k e, tokenRequests w1 !! k = Some e → response e = Some h1 → k = s) →
     ∀ ops, Forall (λ op, ¬ passes op h1) ops →
       resp (run_all JSON_stringify ops w') h1 = resp w1 h1).
Proof.
  intros w1 Hold Hh1 Hres w'. subst w'.
  split; [apply addTokenRequest_normal|].
  rewrite exec_addTokenRequest. fold w1.
  set (w2 := exec (storeRequest JSON_stringify s (Some h2) None) w1).
  destruct (ensureClearer_frame w2) as (Hmap & _ & Hheap & _).
  assert (w2 = set_tokenRequests
                 (insert s (mkTokenRequest s (Some h2)
                              (clock w1 (clockReads w1)) None))
                 (set_clockReads (N.succ (clockReads w1)) w1)) as Hw2.
  { unfold w2, exec.
    rewrite (storeRequest_replace _ s (Some h2) None w1 old); auto. }
  assert (heap (exec ensureClearer w2) = heap w1) as Hheap'.
  { by rewrite Hheap, Hw2. }
  split; [unfold waiters; by rewrite Hold, Hh1|].
  split; [unfold waiters; rewrite Hmap, Hw2; simpl; by rewrite lookup_insert_eq|].
  split; [done|].
  intros Hne Honly ops Hops.
  destruct (run_all_silent JSON_stringify h1 ops (exec ensureClearer w2))
    as [Hresp _]; [|done|].
  - intros (k & e & Hk & He). rewrite Hmap, Hw2 in Hk. simpl in Hk.
    destruct (decide (s = k)) as [->|Hsk].
    + rewrite lookup_insert_eq in Hk. injection Hk as <-. simpl in He.
      congruence.
    + rewrite lookup_insert_ne in Hk by done.
      by specialize (Honly k e Hk He).
  - rewrite Hresp. unfold resp. by rewrite Hheap'.
Qed.

Lemma second_waiter_discards_first_witness :
  let w := exec (get_token sample_stringify (QString state_a) 1%N)
                (initial (ticking 5000)) in
  let w' := exec (addTokenRequest sample_stringify state_a (Some 2%N) None) w in
  throws (addTokenRequest sample_stringify state_a (Some 2%N) None) w = false
  ∧ waiters w state_a = [1%N]
  ∧ waiters w' state_a = [2%N]
  ∧ heap w' = heap w
  ∧ (1%N ≠ 2%N →
     (∀ k e, tokenRequests w !! k = Some e → response e = Some 1%N →
             k = state_a) →
     ∀ ops, Forall (λ op, ¬ passes op 1%N) ops →
       resp (run_all sample_stringify ops w') 1%N = resp w 1%N).
Proof.
  apply (second_waiter_discards_first sample_stringify state_a 1%N 2%N
           (exec (get_token sample_stringify (QString state_a) 1%N)
                 (initial (ticking 5000)))
           (mkTokenRequest state_a (Some 1%N) 0 None)).
  - vm_compute. reflexivity.
  - reflexivity.
  - reflexivity.
Defined.

(** * Further properties of the code *)

(** ** The pattern of line 138 *)

Lemma matches_here_spec n s :
  matches_here n s = true ↔
  ∃ m b, s = m +:+ b ∧ String.length m = n ∧ all_in_class m = true.
Proof.
  revert s. induction n as [|n IH]; intros s; simpl.
  - split; [intros _; by exists EmptyString, s|done].
  - destruct s as [|c s].
    + split; [done|]. intros (m & b & Hs & Hlen & _).
      destruct m; simpl in *; [lia|discriminate].
    + rewrite andb_true_iff, IH. split.
      * intros (Hc & m & b & -> & Hlen & Hm). exists (String c m), b.
        simpl. rewrite Hc, Hm, Hlen. done.
      * intros (m & b & Hs & Hlen & Hm). destruct m as [|c' m]; [done|].
        simpl in *. injection Hs as -> ->. injection Hlen as Hlen.
        apply andb_true_iff in Hm as [Hc Hm]. split; [done|].
        by exists m, b.
Qed.

(** X1.  [state.match(/[a-z0-9]{32}/i)] succeeds exactly on the strings
    that contain, somewhere, 32 consecutive characters of the class. *)
Theorem String_match_spec s :
  String_match s = true ↔
  ∃ a m b, s = a +:+ m +:+ b ∧ String.length m = 32%nat
           ∧ all_in_class m = true.
Proof.
  induction s as [|c s IH].
  - simpl. split; [done|]. intros (a & m & b & Hs & Hlen & _).
    destruct a, m; simpl in *; try lia; discriminate.
  - change (String_match (String c s))
      with (if matches_here 32 (String c s) then true else String_match s).
    destruct (matches_here 32 (String c s)) eqn:Hhere.
    + split; [intros _|done]. apply matches_here_spec in Hhere
        as (m & b & Hs & Hlen & Hm). by exists EmptyString, m, b.
    + rewrite IH. split.
      * intros (a & m & b & -> & Hlen & Hm). by exists (String c a), m, b.
      * intros (a & m & b & Hs & Hlen & Hm). destruct a as [|c' a].
        -- simpl in Hs. assert (matches_here 32 (String c s) = true);
             [|congruence]. apply matches_here_spec. by exists m, b.
        -- simpl in Hs. injection Hs as -> ->. by exists a, m, b.
Qed.

(** ** Writing to a response *)

Lemma exec_update_response h f w :
  exec (update_response h f) w = set_heap (insert h (f (resp w h))) w.
Proof. reflexivity. Qed.

Lemma resp_set_heap_eq h r w : resp (set_heap (insert h r) w) h = r.
Proof. unfold resp. simpl. by rewrite lookup_insert_eq. Qed.

Lemma resp_set_heap_ne h h' r w :
  h ≠ h' → resp (set_heap (insert h r) w) h' = resp w h'.
Proof. intros Hne. unfold resp. simpl. by rewrite lookup_insert_ne. Qed.

(** [res.end(chunk)] closes the response it is called on and touches
    nothing else. *)
Lemma res_end_spec h chunk w :
  let w' := exec (res_end h chunk) w in
  res_end h chunk w = (Normal (), w')
  ∧ store_of w' = store_of w
  ∧ finished (resp w' h) = true
  ∧ statusCode (resp w' h) = statusCode (resp w h)
  ∧ (finished (resp w h) = false →
     body (resp w' h) = body (resp w h) ++ option_list chunk)
  ∧ ∀ h', h ≠ h' → resp w' h' = resp w h'.
Proof.
  unfold res_end. rewrite exec_update_response. cbv zeta.
  rewrite resp_set_heap_eq. split; [done|]. split; [done|].
  destruct (finished (resp w h)) eqn:Hfin; simpl; rewrite ?Hfin;
    repeat split; try done; intros h' Hne; by apply resp_set_heap_ne.
Qed.

Lemma reject_400_frame res w h :
  res ≠ h → resp (exec (res_status res 400;; res_end res None) w) h = resp w h.
Proof.
  intros Hne. unfold res_status, res_end, update_response, resp. js_unfold.
  simpl. by rewrite !lookup_insert_ne.
Qed.

(** ** The routes turn bad requests away *)

(** X2.  A poll whose [state] is not a string, or holds no run of 32
    characters of the class, is answered 400 and closed at once; the store
    and every other response are left as they were. *)
Theorem token_route_rejects JSON_stringify q res w :
  passes_guard q = false →
  let w' := exec (get_token JSON_stringify q res) w in
  throws (get_token JSON_stringify q res) w = false
  ∧ store_of w' = store_of w
  ∧ statusCode (resp w' res) = 400
  ∧ finished (resp w' res) = true
  ∧ ∀ h, res ≠ h → resp w' h = resp w h.
Proof.
  intros Hguard w'. subst w'.
  assert (get_token JSON_stringify q res
          = (res_status res 400;; res_end res None)) as ->.
  { destruct q as [|s|]; simpl in *; try done. by rewrite Hguard. }
  split; [done|]. destruct (reject_400 res w) as (? & ? & ?).
  repeat split; try done. intros h Hne. by apply reject_400_frame.
Qed.

Lemma token_route_rejects_witness :
  let q := QString "bad" in
  let w := initial (frozen 0) in
  let w' := exec (get_token sample_stringify q 1%N) w in
  passes_guard q = false
  ∧ throws (get_token sample_stringify q 1%N) w = false
  ∧ store_of w' = store_of w
  ∧ statusCode (resp w' 1%N) = 400
  ∧ finished (resp w' 1%N) = true
  ∧ ∀ h, 1%N ≠ h → resp w' h = resp w h.
Proof.
  split; [reflexivity|].
  apply (token_route_rejects sample_stringify (QString "bad") 1%N
           (initial (frozen 0))).
  reflexivity.
Defined.

(** X3.  A callback that lacks a string [state] or a string [code] is
    answered 400 and closed at once, however the exchange would have ended;
    the store and every other response are left as they were. *)
Theorem login_route_rejects JSON_stringify state code x res w :
  has_params state code = false →
  let w' := exec (get_login JSON_stringify state code x res) w in
  throws (get_login JSON_stringify state code x res) w = false
  ∧ store_of w' = store_of w
  ∧ statusCode (resp w' res) = 400
  ∧ finished (resp w' res) = true
  ∧ ∀ h, res ≠ h → resp w' h = resp w h.
Proof.
  intros Hparams w'. subst w'.
  assert (get_login JSON_stringify state code x res
          = (res_status res 400;; res_end res None)) as ->.
  { by destruct state, code. }
  split; [done|]. destruct (reject_400 res w) as (? & ? & ?).
  repeat split; try done. intros h Hne. by apply reject_400_frame.
Qed.

Lemma login_route_rejects_witness :
  let x := ExchangeAnswered 200 (BodyToken sample_token) in
  let w := initial (frozen 0) in
  let w' := exec (get_login sample_stringify (QString state_a) QUndefined x 1%N) w in
  has_params (QString state_a) QUndefined = false
  ∧ throws (get_login sample_stringify (QString state_a) QUndefined x 1%N) w
    = false
  ∧ store_of w' = store_of w
  ∧ statusCode (resp w' 1%N) = 400
  ∧ finished (resp w' 1%N) = true
  ∧ ∀ h, 1%N ≠ h → resp w' h = resp w h.
Proof.
  split; [reflexivity|].
  apply (login_route_rejects sample_stringify (QString state_a) QUndefined
           (ExchangeAnswered 200 (BodyToken sample_token)) 1%N
           (initial (frozen 0))).
  reflexivity.
Defined.

(** X4.  When the exchange with the provider does not yield a token (the
    request fails, the status is not 200, the body cannot be read or is not
    JSON), the callback leaves the store and every poll as they were and
    throws nothing; it closes its own response, except when [fetch] itself
    rejected: then nothing at all is done and the response stays open. *)
Theorem login_failure_leaves_store JSON_stringify state x res w :
  yields_token x = false →
  let w' := exec (login_settled JSON_stringify state x res) w in
  throws (login_settled JSON_stringify state x res) w = false
  ∧ store_of w' = store_of w
  ∧ (∀ h, res ≠ h → resp w' h = resp w h)
  ∧ (x = ExchangeRejected → w' = w)
  ∧ (x ≠ ExchangeRejected → finished (resp w' res) = true).
Proof.
  intros Hx w'. subst w'. unfold login_settled.
  destruct x as [|status body]; [done|].
  assert (∀ msg,
    throws (res_end res (Some msg)) w = false
    ∧ store_of (exec (res_end res (Some msg)) w) = store_of w
    ∧ (∀ h, res ≠ h → resp (exec (res_end res (Some msg)) w) h = resp w h)
    ∧ (ExchangeAnswered status body = ExchangeRejected →
       exec (res_end res (Some msg)) w = w)
    ∧ (ExchangeAnswered status body ≠ ExchangeRejected →
       finished (resp (exec (res_end res (Some msg)) w) res) = true)) as Hend.
  { intros msg. destruct (res_end_spec res (Some msg) w)
      as (Hrun & Hstore & Hfin & _ & _ & Hframe).
    unfold throws. rewrite Hrun. by repeat split. }
  case_bool_decide as Hstatus; [|apply Hend].
  destruct body as [| |token]; try apply Hend.
  subst status. done.
Qed.

Lemma login_failure_leaves_store_witness :
  let x := ExchangeAnswered 500 BodyUnparseable in
  let w := exec (get_token sample_stringify (QString state_a) 1%N)
                (initial (frozen 0)) in
  let w' := exec (login_settled sample_stringify state_a x 2%N) w in
  yields_token x = false
  ∧ throws (login_settled sample_stringify state_a x 2%N) w = false
  ∧ store_of w' = store_of w
  ∧ (∀ h, 2%N ≠ h → resp w' h = resp w h)
  ∧ (x = ExchangeRejected → w' = w)
  ∧ (x ≠ ExchangeRejected → finished (resp w' 2%N) = true).
Proof.
  split; [reflexivity|].
  apply (login_failure_leaves_store sample_stringify state_a
           (ExchangeAnswered 500 BodyUnparseable) 2%N
           (exec (get_token sample_stringify (QString state_a) 1%N)
                 (initial (frozen 0)))).
  reflexivity.
Defined.

(** ** Delivering a token *)

Section Delivery.

Variable JSON_stringify : AccessToken → string.

Lemma handleAccessToken_delivers s token w request h :
  tokenRequests w !! s = Some request →
  response request = Some h →
  headersSent (resp w h) = false →
  handleAccessToken JSON_stringify s token w
  = (Normal (),
     set_tokenRequests (delete s)
       (exec (res_status h 200;;
              res_header h "Content-type" "application/json";;
              res_end h (Some (JSON_stringify token))) w)).
Proof.
  intros Hs Hh Hsent.
  unfold handleAccessToken, res_status, res_header, res_end,
    update_response, resp in *.
  js_unfold. rewrite Hs, Hh. simpl. rewrite lookup_insert_eq. simpl.
  by rewrite Hsent.
Qed.

Lemma delivery_writes h token w :
  open_response (resp w h) →
  let w' := exec (res_status h 200;;
                  res_header h "Content-type" "application/json";;
                  res_end h (Some (JSON_stringify token))) w in
  store_of w' = store_of w
  ∧ resp w' h = delivered JSON_stringify token (resp w h)
  ∧ ∀ h', h ≠ h' → resp w' h' = resp w h'.
Proof.
  intros [Hsent Hopen].
  unfold res_status, res_header, res_end, update_response, resp in *.
  js_unfold. simpl. rewrite lookup_insert_eq. simpl. rewrite Hsent. simpl.
  rewrite !lookup_insert_eq. simpl. rewrite Hopen.
  split; [done|]. split; [done|].
  intros h' Hne. by rewrite !lookup_insert_ne.
Qed.

(** What [addTokenRequest(state, null, token)] does below the ceiling to a
    token that has an entry: the entry is replaced by the held result. *)
Lemma requeue_below s token w old :
  numTokenRequests w < MAX_TOKEN_REQUESTS →
  tokenRequests w !! s = Some old →
  let w' := exec (addTokenRequest JSON_stringify s None (Some token)) w in
  throws (addTokenRequest JSON_stringify s None (Some token)) w = false
  ∧ tokenRequests w'
    = <[s := held s (clock w (clockReads w)) token]> (tokenRequests w)
  ∧ numTokenRequests w' = numTokenRequests w
  ∧ heap w' = heap w.
Proof.
  intros Hbelow Hold w'. subst w'.
  split; [apply addTokenRequest_normal|].
  rewrite exec_addTokenRequest.
  assert (exec evictIfFull w = w) as ->.
  { unfold exec. by rewrite evictIfFull_below. }
  destruct (ensureClearer_frame
              (exec (storeRequest JSON_stringify s None (Some token)) w))
    as (-> & -> & -> & _).
  unfold exec. by rewrite (storeRequest_replace _ s None (Some token) w old)
    by auto.
Qed.

(** X5.  A token that arrives for an entry without a waiter is kept for a
    later poll: below the ceiling the entry is replaced by one that holds
    the token, with a fresh creation time; nothing is written to any
    response and the counter stays. *)
Theorem delivery_without_waiter_holds_result s token w request :
  numTokenRequests w < MAX_TOKEN_REQUESTS →
  tokenRequests w !! s = Some request →
  response request = None →
  let w' := exec (handleAccessToken JSON_stringify s token) w in
  throws (handleAccessToken JSON_stringify s token) w = false
  ∧ tokenRequests w'
    = <[s := held s (clock w (clockReads w)) token]> (tokenRequests w)
  ∧ numTokenRequests w' = numTokenRequests w
  ∧ heap w' = heap w.
Proof.
  intros Hbelow Hs Hnone.
  assert (handleAccessToken JSON_stringify s token w
          = addTokenRequest JSON_stringify s None (Some token) w) as Hrun.
  { unfold handleAccessToken. js_unfold. by rewrite Hs, Hnone. }
  unfold throws, exec. rewrite Hrun.
  by apply (requeue_below s token w request).
Qed.


End Delivery.

Lemma delivery_without_waiter_holds_result_witness :
  let w := exec (addTokenRequest sample_stringify state_a None None)
                (initial (ticking 5000)) in
  let w' := exec (handleAccessToken sample_stringify state_a sample_token) w in
  throws (handleAccessToken sample_stringify state_a sample_token) w = false
  ∧ tokenRequests w'
    = <[state_a := held state_a 5000 sample_token]> (tokenRequests w)
  ∧ numTokenRequests w' = numTokenRequests w
  ∧ heap w' = heap w.
Proof.
  apply (delivery_without_waiter_holds_result sample_stringify state_a
           sample_token
           (exec (addTokenRequest sample_stringify state_a None None)
                 (initial (ticking 5000)))
           (mkTokenRequest state_a None 0 None)).
  - reflexivity.
  - vm_compute. reflexivity.
  - reflexivity.
Defined.


(** ** A poll and a callback that meet *)

Section Meeting.

Variable JSON_stringify : AccessToken → string.

Lemma get_login_delivers s code token res w request h :
  tokenRequests w !! s = Some request →
  response request = Some h →
  open_response (resp w h) →
  res ≠ h →
  finished (resp w res) = false →
  let x := ExchangeAnswered 200 (BodyToken token) in
  let w' := exec (get_login JSON_stringify (QString s) (QString code) x res) w in
  throws (get_login JSON_stringify (QString s) (QString code) x res) w = false
  ∧ tokenRequests w' = delete s (tokenRequests w)
  ∧ resp w' h = delivered JSON_stringify token (resp w h)
  ∧ body (resp w' res)
    = body (resp w res)
      ++ ["Thanks for logging into Flowdoge. You can close this now."]
  ∧ finished (resp w' res) = true
  ∧ ∀ h', h ≠ h' → res ≠ h' → resp w' h' = resp w h'.
Proof.
  intros Hs Hh Hopen Hne Hres x w'. subst x w'.
  set (v := set_tokenRequests (delete s)
              (exec (res_status h 200;;
                     res_header h "Content-type" "application/json";;
                     res_end h (Some (JSON_stringify token))) w)).
  assert (handleAccessToken JSON_stringify s token w = (Normal (), v)) as Hrun.
  { apply (handleAccessToken_delivers _ s token w request h); try done.
    apply Hopen. }
  destruct (delivery_writes JSON_stringify h token w Hopen)
    as (Hstore & Hh' & Hframe).
  apply (f_equal (λ x, x.1.1)) in Hstore. simpl in Hstore.
  assert (∀ h', resp v h' = resp (exec (res_status h 200;;
                     res_header h "Content-type" "application/json";;
                     res_end h (Some (JSON_stringify token))) w) h') as Hv.
  { done. }
  destruct (res_end_spec res
              (Some "Thanks for logging into Flowdoge. You can close this now.")
              v) as (Hend & _ & Hfin & _ & Hbody & Hframe2).
  assert (get_login JSON_stringify (QString s) (QString code)
            (ExchangeAnswered 200 (BodyToken token)) res w
          = (Normal (),
             exec (res_end res
                     (Some "Thanks for logging into Flowdoge. You can close this now."))
                  v)) as Hlogin.
  { unfold get_login, login_settled, login_then, try_catch. simpl.
    rewrite (bind_normal _ _ w () v Hrun). by rewrite Hend. }
  unfold throws, exec at 1 2 3 4 5. rewrite Hlogin. simpl.
  split; [done|]. split; [by rewrite Hstore|].
  split. { rewrite Hframe2 by done. by rewrite Hv, Hh'. }
  split. { rewrite Hbody; [by rewrite Hv, Hframe|]. by rewrite Hv, Hframe. }
  split; [done|].
  intros h' Hne1 Hne2. rewrite Hframe2 by done. rewrite Hv. by apply Hframe.
Qed.

(** X7.  The callback answers the poll that waits for its token: when the
    provider yields a token and an open poll is registered for the state,
    the poll gets status 200 and the serialized token, and is closed; its
    entry is removed; the caller of [/login] is thanked and closed; no
    other response is touched and nothing is thrown.  (The statement says
    nothing of the header the delivery sets.) *)
Theorem login_answers_waiting_poll s code token res w request h :
  tokenRequests w !! s = Some request →
  response request = Some h →
  open_response (resp w h) →
  res ≠ h →
  finished (resp w res) = false →
  let x := ExchangeAnswered 200 (BodyToken token) in
  let w' := exec (get_login JSON_stringify (QString s) (QString code) x res) w in
  throws (get_login JSON_stringify (QString s) (QString code) x res) w = false
  ∧ tokenRequests w' = delete s (tokenRequests w)
  ∧ statusCode (resp w' h) = 200
  ∧ body (resp w' h) = body (resp w h) ++ [JSON_stringify token]
  ∧ finished (resp w' h) = true
  ∧ body (resp w' res)
    = body (resp w res)
      ++ ["Thanks for logging into Flowdoge. You can close this now."]
  ∧ finished (resp w' res) = true
  ∧ ∀ h', h ≠ h' → res ≠ h' → resp w' h' = resp w h'.
Proof.
  intros Hs Hh Hopen Hne Hres.
  destruct (get_login_delivers s code token res w request h Hs Hh Hopen Hne
              Hres) as (Hthrows & Hmap & Hdel & Hbody & Hfin & Hframe).
  cbv zeta in *. rewrite Hdel. by split_and!.
Qed.

Lemma ensureClearer_set w id :
  tokenRequestClearerInterval w = Some id → exec ensureClearer w = w.
Proof. intros Hid. unfold ensureClearer, exec. js_unfold. by rewrite Hid. Qed.

Lemma ensureClearer_unset w :
  tokenRequestClearerInterval w = None →
  exec ensureClearer w
  = set_tokenRequestClearerInterval (Some (nextIntervalId w))
      (set_intervals (insert (nextIntervalId w) (MAX_REQUEST_LIFETIME + 1000))
                     (S (nextIntervalId w)) w).
Proof.
  intros Hid. unfold ensureClearer, exec, setInterval. js_unfold.
  by rewrite Hid.
Qed.

Lemma ensureClearer_is_set w :
  is_Some (tokenRequestClearerInterval (exec ensureClearer w)).
Proof.
  destruct (tokenRequestClearerInterval w) as [id|] eqn:Hid.
  - rewrite (ensureClearer_set w id) by done. by rewrite Hid.
  - rewrite ensureClearer_unset by done. by eexists.
Qed.

(** What [addTokenRequest] does below the ceiling to a token that has no
    entry. *)
Lemma create_below s r t w :
  numTokenRequests w < MAX_TOKEN_REQUESTS →
  tokenRequests w !! s = None →
  let w' := exec (addTokenRequest JSON_stringify s r t) w in
  tokenRequests w'
  = <[s := mkTokenRequest s r (clock w (clockReads w)) t]> (tokenRequests w)
  ∧ numTokenRequests w' = numTokenRequests w + 1
  ∧ heap w' = heap w
  ∧ clock w' = clock w
  ∧ clockReads w' = N.succ (clockReads w)
  ∧ is_Some (tokenRequestClearerInterval w').
Proof.
  intros Hbelow Hnone w'. subst w'. rewrite exec_addTokenRequest.
  assert (exec evictIfFull w = w) as ->.
  { unfold exec. by rewrite evictIfFull_below. }
  set (w2 := exec (storeRequest JSON_stringify s r t) w).
  destruct (ensureClearer_frame w2) as (Hm & Hn & Hh & Hc & Hr).
  rewrite Hm, Hn, Hh, Hc, Hr.
  assert (w2 = set_tokenRequests
                 (insert s (mkTokenRequest s r (clock w (clockReads w)) t))
                 (set_numTokenRequests (λ n, n + 1)
                    (set_clockReads (N.succ (clockReads w)) w))) as Hw2.
  { unfold w2, exec. by rewrite storeRequest_create. }
  split_and!; [by rewrite Hw2..|apply ensureClearer_is_set].
Qed.

(** X8.  A new token of the shape the guard accepts, below the ceiling,
    gets an entry of its own: the entry holds exactly the waiter and the
    result of the call and the time of the call, every other entry is
    kept, the counter grows by one, no response is written, and the sweep
    timer variable is set afterwards. *)
Theorem first_registration_creates_entry s r t w :
  String_match s = true →
  numTokenRequests w < MAX_TOKEN_REQUESTS →
  tokenRequests w !! s = None →
  let w' := exec (addTokenRequest JSON_stringify s r t) w in
  tokenRequests w' !! s
  = Some (mkTokenRequest s r (clock w (clockReads w)) t)
  ∧ (∀ k, k ≠ s → tokenRequests w' !! k = tokenRequests w !! k)
  ∧ numTokenRequests w' = numTokenRequests w + 1
  ∧ size (tokenRequests w') = S (size (tokenRequests w))
  ∧ heap w' = heap w
  ∧ is_Some (tokenRequestClearerInterval w').
Proof.
  intros _ Hbelow Hnone w'.
  destruct (create_below s r t w Hbelow Hnone)
    as (Hmap & Hnum & Hheap & _ & _ & Htimer).
  fold w' in Hmap, Hnum, Hheap, Htimer. rewrite Hmap.
  split; [by rewrite lookup_insert_eq|].
  split; [intros k Hk; by rewrite lookup_insert_ne|].
  split; [done|]. split; [by rewrite map_size_insert_None|]. done.
Qed.


End Meeting.

Lemma login_answers_waiting_poll_witness :
  let w := exec (get_token sample_stringify (QString state_a) 1%N)
                (initial (frozen 0)) in
  let x := ExchangeAnswered 200 (BodyToken sample_token) in
  let w' := exec (get_login sample_stringify (QString state_a) (QString "XYZ")
                            x 2%N) w in
  throws (get_login sample_stringify (QString state_a) (QString "XYZ") x 2%N) w
  = false
  ∧ tokenRequests w' = delete state_a (tokenRequests w)
  ∧ statusCode (resp w' 1%N) = 200
  ∧ body (resp w' 1%N) = body (resp w 1%N) ++ [sample_stringify sample_token]
  ∧ finished (resp w' 1%N) = true
  ∧ body (resp w' 2%N)
    = body (resp w 2%N)
      ++ ["Thanks for logging into Flowdoge. You can close this now."]
  ∧ finished (resp w' 2%N) = true
  ∧ ∀ h', 1%N ≠ h' → 2%N ≠ h' → resp w' h' = resp w h'.
Proof.
  refine (login_answers_waiting_poll sample_stringify state_a "XYZ"
            sample_token 2%N
            (exec (get_token sample_stringify (QString state_a) 1%N)
                  (initial (frozen 0)))
            (mkTokenRequest state_a (Some 1%N) 0 None) 1%N _ _ _ _ _).
  - vm_compute. reflexivity.
  - reflexivity.
  - split; reflexivity.
  - lia.
  - reflexivity.
Defined.

Lemma first_registration_creates_entry_witness :
  let w := initial (ticking 5000) in
  let w' := exec (addTokenRequest sample_stringify state_a (Some 1%N) None) w in
  tokenRequests w' !! state_a = Some (mkTokenRequest state_a (Some 1%N) 0 None)
  ∧ (∀ k, k ≠ state_a → tokenRequests w' !! k = tokenRequests w !! k)
  ∧ numTokenRequests w' = numTokenRequests w + 1
  ∧ size (tokenRequests w') = S (size (tokenRequests w))
  ∧ heap w' = heap w
  ∧ is_Some (tokenRequestClearerInterval w').
Proof.
  refine (first_registration_creates_entry sample_stringify state_a (Some 1%N)
            None (initial (ticking 5000)) _ _ _).
  - reflexivity.
  - reflexivity.
  - reflexivity.
Defined.


(** ** What the sweep does to the waiters *)

Lemma exec_sweepStep_absent now thr k w :
  tokenRequests w !! k = None → exec (sweepStep now thr k) w = w.
Proof. intros Hk. unfold sweepStep, exec. js_unfold. by rewrite Hk. Qed.

Lemma sweepStep_heap now thr k e w :
  tokenRequests w !! k = Some e →
  let w1 := exec (sweepStep now thr k) w in
  (∀ h, ¬ (now - createdAt e > thr ∧ response e = Some h) →
        heap w1 !! h = heap w !! h)
  ∧ (now - createdAt e > thr →
     ∀ r, response e = Some r → timed_out (resp w1 r)).
Proof.
  intros Hk.
  unfold sweepStep, res_status, res_end, update_response, resp, timed_out,
    exec.
  js_unfold. rewrite Hk. case_bool_decide as Hold; simpl.
  - destruct (response e) as [r|] eqn:Hr; simpl.
    + split.
      * intros h Hh. rewrite !lookup_insert_ne; [done|intros ->; by apply Hh..].
      * intros _ r' [= <-]. rewrite !lookup_insert_eq. simpl.
        by destruct (finished (default fresh_response (heap w !! r))).
    + split; [done|]. by intros _ r'.
  - split; [done|]. by intros ?.
Qed.

Lemma sweepStep_keeps_timed_out now thr k r w :
  timed_out (resp w r) → timed_out (resp (exec (sweepStep now thr k) w) r).
Proof.
  intros Hr. destruct (tokenRequests w !! k) as [e|] eqn:Hk;
    [|by rewrite exec_sweepStep_absent].
  destruct (sweepStep_heap now thr k e w Hk) as [Hframe Hout].
  destruct (decide (now - createdAt e > thr ∧ response e = Some r))
    as [[Hold Hresp]|Hnot].
  - by apply Hout.
  - unfold resp. rewrite Hframe by done. exact Hr.
Qed.

Lemma for_of_keeps_timed_out now thr r l : ∀ w,
  timed_out (resp w r) →
  timed_out (resp (exec (for_of l (sweepStep now thr)) w) r).
Proof.
  induction l as [|k l IH]; intros w Hr; [done|].
  simpl. rewrite exec_bind.
  pose proof (sweepStep_keeps_timed_out now thr k r w Hr) as Hstep.
  unfold exec in Hstep.
  destruct (sweepStep now thr k w) as [[[]|err] w1]; simpl in *; [|done].
  by apply IH.
Qed.

Lemma for_of_sweep_heap now thr l : ∀ w,
  NoDup l →
  (∀ k, k ∈ l → is_Some (tokenRequests w !! k)) →
  let w' := exec (for_of l (sweepStep now thr)) w in
  (∀ h, (∀ k e, k ∈ l → tokenRequests w !! k = Some e →
                now - createdAt e > thr → response e ≠ Some h) →
        heap w' !! h = heap w !! h)
  ∧ (∀ k e r, k ∈ l → tokenRequests w !! k = Some e →
              now - createdAt e > thr → response e = Some r →
              timed_out (resp w' r)).
Proof.
  induction l as [|k0 l IH]; intros w Hnd Hdom.
  - simpl. split; [done|]. intros k e r Hk. by apply elem_of_nil in Hk.
  - apply NoDup_cons in Hnd as [Hk0 Hnd].
    destruct (Hdom k0) as [e0 He0]; [by left|].
    destruct (sweepStep_present now thr k0 e0 w He0)
      as (w1 & Hstep & Hmap1 & _).
    destruct (sweepStep_heap now thr k0 e0 w He0) as [Hframe Hout].
    unfold exec in Hframe, Hout. rewrite Hstep in Hframe, Hout.
    simpl in Hframe, Hout.
    assert (∀ k e, k ∈ l → tokenRequests w !! k = Some e →
                   tokenRequests w1 !! k = Some e) as Hkeep.
    { intros k e Hk He. rewrite Hmap1. case_bool_decide; [|done].
      rewrite lookup_delete_ne; [done|]. by intros ->. }
    destruct (IH w1 Hnd) as [IHframe IHout].
    { intros k Hk. destruct (Hdom k) as [e He]; [by right|].
      exists e. by apply Hkeep. }
    assert (exec (for_of (k0 :: l) (sweepStep now thr)) w
            = exec (for_of l (sweepStep now thr)) w1) as Hexec.
    { simpl. rewrite exec_bind. by rewrite Hstep. }
    cbv zeta. rewrite Hexec. split.
    + intros h Hh. rewrite IHframe.
      * apply Hframe. intros [Hold Hresp]. by apply (Hh k0 e0); [left|..].
      * intros k e Hk He Hold. destruct (Hdom k) as [e' He']; [by right|].
        pose proof (Hkeep k e' Hk He') as He''.
        rewrite He in He''. injection He'' as ->.
        apply (Hh k e'); [by right|done..].
    + intros k e r Hk He Hold Hresp. apply elem_of_cons in Hk as [->|Hk].
      * rewrite He0 in He. injection He as ->.
        apply for_of_keeps_timed_out. by apply Hout.
      * apply (IHout k e r); try done. by apply Hkeep.
Qed.

Lemma clearOldTokenRequests_tail thr w :
  ∃ v, for_of (Object_keys w) (sweepStep (clock w (clockReads w)) thr)
              (set_clockReads (N.succ (clockReads w)) w) = (Normal (), v)
    ∧ exec (clearOldTokenRequests thr) w
      = match tokenRequestClearerInterval v with
        | Some id =>
            if bool_decide (numTokenRequests v = 0)
            then set_intervals (delete id) (nextIntervalId v) v
            else v
        | None => v
        end.
Proof.
  destruct (for_of_sweep (clock w (clockReads w)) thr (Object_keys w)
              (set_clockReads (N.succ (clockReads w)) w))
    as (w1 & Hloop & _).
  { apply Object_keys_NoDup. }
  { intros k. by rewrite elem_of_Object_keys. }
  exists w1. split; [done|].
  unfold clearOldTokenRequests. rewrite exec_bind. unfold Date_now at 1.
  cbv beta iota. rewrite exec_bind. unfold gets at 1. cbv beta iota.
  rewrite exec_bind.
  change (Object_keys (set_clockReads (N.succ (clockReads w)) w))
    with (Object_keys w).
  rewrite Hloop.
  rewrite exec_bind. unfold gets at 1. cbv beta iota.
  rewrite exec_bind. unfold gets at 1. cbv beta iota.
  destruct (tokenRequestClearerInterval w1); [|done].
  by case_bool_decide.
Qed.

Lemma clearOldTokenRequests_waiters thr w :
  let w' := exec (clearOldTokenRequests thr) w in
  (∀ k e r, tokenRequests w !! k = Some e → age w e > thr →
            response e = Some r → timed_out (resp w' r))
  ∧ (∀ h, (∀ k e, tokenRequests w !! k = Some e → age w e > thr →
                  response e ≠ Some h) →
          resp w' h = resp w h).
Proof.
  cbv zeta. destruct (clearOldTokenRequests_tail thr w) as (v & Hv & ->).
  destruct (for_of_sweep_heap (clock w (clockReads w)) thr (Object_keys w)
              (set_clockReads (N.succ (clockReads w)) w))
    as [Hframe Hout].
  { apply Object_keys_NoDup. }
  { intros k. by rewrite elem_of_Object_keys. }
  cbv zeta in Hframe, Hout. unfold exec in Hframe, Hout.
  rewrite Hv in Hframe, Hout. simpl in Hframe, Hout.
  assert (∀ h, resp (match tokenRequestClearerInterval v with
                     | Some id =>
                         if bool_decide (numTokenRequests v = 0)
                         then set_intervals (delete id) (nextIntervalId v) v
                         else v
                     | None => v
                     end) h = resp v h) as Hresp.
  { intros h. destruct (tokenRequestClearerInterval v); [|done].
    by case_bool_decide. }
  split.
  - intros k e r Hk Hold Hr. rewrite Hresp.
    apply (Hout k e r); try done. apply elem_of_Object_keys. by exists e.
  - intros h Hh. rewrite Hresp. unfold resp at 1. rewrite Hframe; [done|].
    intros k e _ Hk Hold. by apply (Hh k e).
Qed.

(** X10.  Every waiter of an entry that the sweep evicts is answered with
    status 408 and closed, and the sweep writes to no response other than
    these. *)
Theorem sweep_times_out_evicted_waiters thr w :
  let w' := exec (clearOldTokenRequests thr) w in
  (∀ k e r, tokenRequests w !! k = Some e → age w e > thr →
            response e = Some r → timed_out (resp w' r))
  ∧ (∀ h, (∀ k e, tokenRequests w !! k = Some e → age w e > thr →
                  response e ≠ Some h) →
          resp w' h = resp w h).
Proof. apply clearOldTokenRequests_waiters. Qed.

(** X11.  A sweep with any threshold never throws, reads the clock once,
    keeps exactly the entries whose age is at most the threshold, each as
    it was, and lowers the counter by the number of entries it evicts. *)
Theorem sweep_keeps_exactly_the_young thr w :
  let w' := exec (clearOldTokenRequests thr) w in
  throws (clearOldTokenRequests thr) w = false
  ∧ (∀ k e, tokenRequests w' !! k = Some e ↔
            tokenRequests w !! k = Some e ∧ age w e ≤ thr)
  ∧ numTokenRequests w - numTokenRequests w'
    = Z.of_nat (size (tokenRequests w)) - Z.of_nat (size (tokenRequests w'))
  ∧ clockReads w' = N.succ (clockReads w).
Proof.
  cbv zeta. unfold throws, exec.
  destruct (clearOldTokenRequests_spec thr w)
    as (w' & -> & Hmap & Hdrift & _ & _ & _ & _ & Hreads).
  simpl. split_and!; [done| |unfold drift in Hdrift; lia|done].
  intros k e. rewrite Hmap. split; intros [? ?]; split; try done; lia.
Qed.

(** X12.  The sweep never assigns [tokenRequestClearerInterval] and never
    schedules a timer; it cancels the timer the variable names exactly when
    the counter, not the number of keys, is zero after the loop. *)
Theorem sweep_cancels_timer_on_zero_counter thr w :
  let w' := exec (clearOldTokenRequests thr) w in
  tokenRequestClearerInterval w' = tokenRequestClearerInterval w
  ∧ nextIntervalId w' = nextIntervalId w
  ∧ intervals w'
    = match tokenRequestClearerInterval w with
      | Some id =>
          if bool_decide (numTokenRequests w' = 0)
          then delete id (intervals w) else intervals w
      | None => intervals w
      end.
Proof.
  cbv zeta. destruct (clearOldTokenRequests_tail thr w) as (v & Hv & ->).
  destruct (for_of_sweep (clock w (clockReads w)) thr (Object_keys w)
              (set_clockReads (N.succ (clockReads w)) w))
    as (v' & Hv' & _ & _ & Hti & Hiv & Hnext & _).
  { apply Object_keys_NoDup. }
  { intros k. by rewrite elem_of_Object_keys. }
  rewrite Hv in Hv'. injection Hv' as <-. simpl in Hti, Hiv, Hnext.
  rewrite <- Hti, <- Hiv, <- Hnext.
  destruct (tokenRequestClearerInterval v) as [id|] eqn:Hid; [|done].
  case_bool_decide as Hzero; simpl.
  - by rewrite bool_decide_eq_true_2.
  - by rewrite bool_decide_eq_false_2.
Qed.

(** ** The mean age as a threshold *)

Lemma foldl_age_lower w lo l : ∀ acc,
  (∀ k, k ∈ l → ∃ e, tokenRequests w !! k = Some e ∧ lo ≤ age w e) →
  acc + Z.of_nat (length l) * lo
  ≤ foldl (λ acc k,
      match tokenRequests w !! k with
      | Some request => acc + age w request
      | None => acc
      end) acc l.
Proof.
  induction l as [|k l IH]; intros acc Hl; simpl; [lia|].
  destruct (Hl k) as (e & -> & He); [by left|].
  specialize (IH (acc + age w e)).
  assert (∀ k, k ∈ l → ∃ e, tokenRequests w !! k = Some e ∧ lo ≤ age w e)
    as Hl'.
  { intros k' Hk'. apply Hl. by right. }
  specialize (IH Hl'). lia.
Qed.

Lemma foldl_age_upper w hi l : ∀ acc,
  (∀ k, k ∈ l → ∃ e, tokenRequests w !! k = Some e ∧ age w e ≤ hi) →
  foldl (λ acc k,
      match tokenRequests w !! k with
      | Some request => acc + age w request
      | None => acc
      end) acc l
  ≤ acc + Z.of_nat (length l) * hi.
Proof.
  induction l as [|k l IH]; intros acc Hl; simpl; [lia|].
  destruct (Hl k) as (e & -> & He); [by left|].
  specialize (IH (acc + age w e)).
  assert (∀ k, k ∈ l → ∃ e, tokenRequests w !! k = Some e ∧ age w e ≤ hi)
    as Hl'.
  { intros k' Hk'. apply Hl. by right. }
  specialize (IH Hl'). lia.
Qed.

Lemma length_Object_keys w :
  length (Object_keys w) = size (tokenRequests w).
Proof. unfold Object_keys. by rewrite length_fmap, length_map_to_list. Qed.

Lemma totalAge_lower w lo :
  (∀ k e, tokenRequests w !! k = Some e → lo ≤ age w e) →
  Z.of_nat (size (tokenRequests w)) * lo ≤ totalAge w.
Proof.
  intros Hall. rewrite <- length_Object_keys.
  pose proof (foldl_age_lower w lo (Object_keys w) 0) as Hb.
  unfold totalAge. simpl in Hb. apply Hb.
  intros k [e He]%elem_of_Object_keys. exists e. split; [done|].
  by apply (Hall k).
Qed.

Lemma totalAge_upper w hi :
  (∀ k e, tokenRequests w !! k = Some e → age w e ≤ hi) →
  totalAge w ≤ Z.of_nat (size (tokenRequests w)) * hi.
Proof.
  intros Hall. rewrite <- length_Object_keys.
  pose proof (foldl_age_upper w hi (Object_keys w) 0) as Hb.
  unfold totalAge. simpl in Hb. apply Hb.
  intros k [e He]%elem_of_Object_keys. exists e. split; [done|].
  by apply (Hall k).
Qed.

Lemma Math_round_div_bounds a b lo hi :
  0 < b → b * lo ≤ a ≤ b * hi → lo ≤ Math_round_div a b ≤ hi.
Proof.
  intros Hb [Hlo Hhi]. unfold Math_round_div. split.
  - apply Z.div_le_lower_bound; lia.
  - apply Z.lt_succ_r. apply Z.div_lt_upper_bound; lia.
Qed.

(** X14.  While the counter agrees with the number of keys and the store is
    not empty, the threshold of the second pass lies between the smallest
    and the largest age in the store. *)
Theorem mean_between_extremes w lo hi :
  drift w = 0 →
  tokenRequests w ≠ ∅ →
  (∀ k e, tokenRequests w !! k = Some e → lo ≤ age w e ≤ hi) →
  lo ≤ meanThreshold w ≤ hi.
Proof.
  intros Hdrift Hne Hall. rewrite meanThreshold_eq.
  assert (0 < size (tokenRequests w))%nat as Hsize.
  { destruct (size (tokenRequests w)) eqn:Hs; [|lia].
    by apply map_size_empty_iff in Hs. }
  unfold drift in Hdrift.
  apply Math_round_div_bounds; [lia|].
  replace (numTokenRequests w) with (Z.of_nat (size (tokenRequests w)))
    by lia.
  split; [apply totalAge_lower|apply totalAge_upper];
    intros k e He; by destruct (Hall k e He).
Qed.

(** X15.  While the counter agrees with the number of keys, the second pass
    cannot empty the store: when both clock readings of the pass fall in
    the same millisecond, an entry no older than any other survives it. *)
Theorem mean_pass_keeps_the_youngest w k e :
  drift w = 0 →
  tokenRequests w !! k = Some e →
  (∀ k' e', tokenRequests w !! k' = Some e' → createdAt e' ≤ createdAt e) →
  clock w (N.succ (clockReads w)) = clock w (clockReads w) →
  tokenRequests (exec forceClearOldTokenRequests w) !! k = Some e.
Proof.
  intros Hdrift Hk Hyoung Hclock.
  apply forceClearOldTokenRequests_lookup. split; [done|].
  unfold age at 1. simpl. rewrite Hclock. fold (age w e).
  rewrite meanThreshold_eq.
  assert (0 < size (tokenRequests w))%nat as Hsize.
  { destruct (size (tokenRequests w)) eqn:Hs; [|lia].
    apply map_size_empty_iff in Hs. by rewrite Hs in Hk. }
  unfold drift in Hdrift.
  assert (Z.of_nat (size (tokenRequests w)) * age w e ≤ totalAge w) as Hsum.
  { apply totalAge_lower. intros k' e' He'. unfold age.
    specialize (Hyoung k' e' He'). lia. }
  unfold Math_round_div. apply Z.div_le_lower_bound; lia.
Qed.

Lemma two_ages_lookup k e :
  tokenRequests two_ages !! k = Some e →
  (k = state_a ∧ e = held state_a 0 sample_token)
  ∨ (k = state_b ∧ e = held state_b 400 sample_token).
Proof.
  unfold two_ages. simpl. rewrite lookup_insert_Some, lookup_singleton_Some.
  naive_solver.
Qed.

Lemma mean_between_extremes_witness : 600 ≤ meanThreshold two_ages ≤ 1000.
Proof.
  apply (mean_between_extremes two_ages 600 1000).
  - vm_compute. reflexivity.
  - intros Hempty. apply (f_equal (λ m, m !! state_a)) in Hempty.
    vm_compute in Hempty. discriminate.
  - intros k e [[_ ->]|[_ ->]]%two_ages_lookup; vm_compute; split;
      discriminate.
Defined.

Lemma mean_pass_keeps_the_youngest_witness :
  tokenRequests (exec forceClearOldTokenRequests two_ages) !! state_b
  = Some (held state_b 400 sample_token).
Proof.
  apply (mean_pass_keeps_the_youngest two_ages state_b
           (held state_b 400 sample_token)).
  - vm_compute. reflexivity.
  - vm_compute. reflexivity.
  - intros k e [[_ ->]|[_ ->]]%two_ages_lookup; vm_compute; discriminate.
  - reflexivity.
Defined.

(** ** The routes, one turn at a time *)

Section Turns.

Variable JSON_stringify : AccessToken → string.

Lemma same_store_refl w : same_store w w.
Proof. by unfold same_store. Qed.

Lemma same_store_trans w1 w2 w3 :
  same_store w1 w2 → same_store w2 w3 → same_store w1 w3.
Proof.
  unfold same_store. intros (-> & -> & -> & -> & ->) (-> & -> & -> & -> & ->).
  done.
Qed.

Lemma update_response_same_store h f w :
  same_store w (exec (update_response h f) w).
Proof. by unfold same_store. Qed.

Lemma res_status_same_store h c w : same_store w (exec (res_status h c) w).
Proof. apply update_response_same_store. Qed.

Lemma res_end_same_store h c w : same_store w (exec (res_end h c) w).
Proof. apply update_response_same_store. Qed.

Lemma res_write_same_store h c w : same_store w (exec (res_write h c) w).
Proof. apply update_response_same_store. Qed.

Lemma reject_same_store h w :
  same_store w (exec (res_status h 400;; res_end h None) w).
Proof. by unfold same_store. Qed.

Lemma exec_handleAccessToken s token w :
  exec (handleAccessToken JSON_stringify s token) w
  = match tokenRequests w !! s with
    | None => w
    | Some request =>
        match response request with
        | None => exec (addTokenRequest JSON_stringify s None (Some token)) w
        | Some h =>
            if headersSent (resp w h)
            then exec (addTokenRequest JSON_stringify s None (Some token))
                      (exec (res_status h 200) w)
            else set_tokenRequests (delete s)
                   (exec (res_status h 200;;
                          res_header h "Content-type" "application/json";;
                          res_end h (Some (JSON_stringify token))) w)
        end
    end.
Proof.
  destruct (tokenRequests w !! s) as [request|] eqn:Hs.
  - destruct (response request) as [h|] eqn:Hh.
    + destruct (headersSent (resp w h)) eqn:Hsent.
      * unfold handleAccessToken, res_status, res_header, res_end,
          update_response, resp in *.
        js_unfold. rewrite Hs, Hh. simpl. rewrite lookup_insert_eq. simpl.
        by rewrite Hsent.
      * unfold exec at 1.
        by rewrite (handleAccessToken_delivers _ s token w request h).
    + unfold handleAccessToken. js_unfold. by rewrite Hs, Hh.
  - unfold exec. by rewrite handleAccessToken_absent.
Qed.

(** X16.  For a token of the shape the guard accepts,
    [handleAccessToken] throws exactly when the store has no entry for it:
    with an entry, a failure to write to the waiter is caught and the
    result is filed instead. *)
Theorem handleAccessToken_throws_iff s token w :
  String_match s = true →
  throws (handleAccessToken JSON_stringify s token) w = true
  ↔ tokenRequests w !! s = None.
Proof.
  intros _. split.
  - intros Hthrows. destruct (tokenRequests w !! s) as [request|] eqn:Hs;
      [exfalso|done].
    destruct (response request) as [h|] eqn:Hh.
    + destruct (headersSent (resp w h)) eqn:Hsent.
      * revert Hthrows.
        unfold throws, handleAccessToken, res_status, res_header, res_end,
          update_response, resp in *.
        unfold mbind, JS_bind, try_catch, gets, modify, throw.
        rewrite Hs, Hh. simpl. rewrite lookup_insert_eq. simpl.
        rewrite Hsent. rewrite addTokenRequest_run. done.
      * unfold throws in Hthrows.
        by rewrite (handleAccessToken_delivers _ s token w request h)
          in Hthrows.
    + revert Hthrows. unfold throws, handleAccessToken.
      unfold mbind, JS_bind, gets. rewrite Hs, Hh.
      by rewrite addTokenRequest_run.
  - intros Hs. unfold throws. by rewrite handleAccessToken_absent.
Qed.

End Turns.

(** ** Where entries come from *)

Section Entries.

Variable JSON_stringify : AccessToken → string.

Lemma forceClearOldTokenRequests_subseteq w :
  tokenRequests (exec forceClearOldTokenRequests w) ⊆ tokenRequests w.
Proof.
  apply map_subseteq_spec. intros k e.
  rewrite forceClearOldTokenRequests_lookup. tauto.
Qed.

Lemma intervalFires_subseteq id w :
  tokenRequests (exec (intervalFires id) w) ⊆ tokenRequests w.
Proof.
  unfold intervalFires, exec. js_unfold.
  destruct (intervals w !! id); [|done].
  apply clearOldTokenRequests_subseteq.
Qed.

Lemma storeRequest_entries s r t w k e :
  tokenRequests (exec (storeRequest JSON_stringify s r t) w) !! k = Some e →
  tokenRequests w !! k = Some e
  ∨ (k = s ∧ e = mkTokenRequest s r (clock w (clockReads w)) t).
Proof.
  unfold exec.
  destruct (tokenRequests w !! s) as [old|] eqn:Hs.
  - destruct (result old) as [stored|] eqn:Hres; [destruct r as [h|]|].
    + rewrite (storeRequest_replay _ s h t w old stored) by done. by left.
    + rewrite (storeRequest_replace _ s None t w old) by auto. simpl.
      rewrite lookup_insert_Some. naive_solver.
    + rewrite (storeRequest_replace _ s r t w old) by auto. simpl.
      rewrite lookup_insert_Some. naive_solver.
  - rewrite storeRequest_create by done. simpl.
    rewrite lookup_insert_Some. naive_solver.
Qed.

Lemma addTokenRequest_entries s r t w k e :
  tokenRequests (exec (addTokenRequest JSON_stringify s r t) w) !! k = Some e →
  tokenRequests w !! k = Some e
  ∨ (k = s ∧ ∃ now, e = mkTokenRequest s r now t).
Proof.
  rewrite exec_addTokenRequest.
  destruct (ensureClearer_frame
              (exec (storeRequest JSON_stringify s r t) (exec evictIfFull w)))
    as (-> & _).
  intros [Hold|[-> ->]]%storeRequest_entries.
  - left. eapply lookup_weaken; [done|apply evictIfFull_subseteq].
  - right. eauto.
Qed.

Lemma delivery_same_store h chunk w :
  same_store w
    (exec (res_status h 200;;
           res_header h "Content-type" "application/json";;
           res_end h (Some chunk)) w).
Proof.
  unfold same_store, res_status, res_header, res_end, update_response, exec.
  js_unfold. simpl.
  by destruct (headersSent (resp _ h)).
Qed.

Lemma handleAccessToken_entries s token w k e :
  tokenRequests (exec (handleAccessToken JSON_stringify s token) w) !! k
    = Some e →
  tokenRequests w !! k = Some e
  ∨ (k = s ∧ is_Some (tokenRequests w !! s)
     ∧ ∃ now, e = mkTokenRequest s None now (Some token)).
Proof.
  rewrite exec_handleAccessToken.
  destruct (tokenRequests w !! s) as [request|] eqn:Hs; [|by left].
  destruct (response request) as [h|] eqn:Hh.
  - destruct (headersSent (resp w h)) eqn:Hsent.
    + intros [Hold|[-> Hnew]]%addTokenRequest_entries.
      * left. exact Hold.
      * right. eauto.
    + simpl. intros [_ Hold]%lookup_delete_Some. left.
      by destruct (delivery_same_store h (JSON_stringify token) w)
        as (<- & _).
  - intros [Hold|[-> Hnew]]%addTokenRequest_entries.
    + by left.
    + right. eauto.
Qed.

Lemma exec_login_then s token res w :
  exec (login_then JSON_stringify s token res) w
  = exec (res_end res (Some
            (if throws (handleAccessToken JSON_stringify s token) w
             then "Couldn't parse response from Flowdock :/"
             else "Thanks for logging into Flowdoge. You can close this now.")))
         (exec (handleAccessToken JSON_stringify s token) w).
Proof.
  unfold login_then, try_catch, exec, throws. unfold mbind, JS_bind.
  by destruct (handleAccessToken JSON_stringify s token w) as [[[]|err] w1].
Qed.

Lemma exec_get_login state code x res w :
  exec (get_login JSON_stringify state code x res) w
  = match state, code with
    | QString s, QString _ =>
        match x with
        | ExchangeRejected => w
        | ExchangeAnswered status body =>
            match token_of x with
            | Some token => exec (login_then JSON_stringify s token res) w
            | None =>
                exec (res_end res (Some
                  (if bool_decide (status = 200)
                   then "Couldn't parse response from Flowdock :/"
                   else "Errmmm, not sure what happened, but that didn't work. Maybe try again?"))) w
            end
        end
    | _, _ => exec (res_status res 400;; res_end res None) w
    end.
Proof.
  unfold get_login, login_settled, token_of.
  destruct state, code; try done.
  destruct x as [|status body]; [done|].
  case_bool_decide; by destruct body.
Qed.

Lemma get_login_entries state code x res w k e :
  tokenRequests (exec (get_login JSON_stringify state code x res) w) !! k
    = Some e →
  tokenRequests w !! k = Some e
  ∨ files (Callback state code x res) w k e.
Proof.
  rewrite exec_get_login.
  destruct state as [s| |]; try by left.
  destruct code; try by left.
  destruct x as [|status body]; [by left|].
  destruct (token_of (ExchangeAnswered status body)) as [token|] eqn:Htok;
    [|by left].
  rewrite exec_login_then.
  destruct (res_end_same_store res
    (Some (if throws (handleAccessToken JSON_stringify s token) w
           then "Couldn't parse response from Flowdock :/"
           else "Thanks for logging into Flowdoge. You can close this now."))
    (exec (handleAccessToken JSON_stringify s token) w)) as (-> & _).
  intros [Hold|(-> & Hin & now & ->)]%handleAccessToken_entries; [by left|].
  right. unfold files. split; [done|]. split; [done|].
  exists token, now. by split.
Qed.

Lemma get_token_entries q res w k e :
  tokenRequests (exec (get_token JSON_stringify q res) w) !! k = Some e →
  tokenRequests w !! k = Some e ∨ files (Poll q res) w k e.
Proof.
  unfold get_token. destruct q as [s| |]; try by left.
  destruct (String_match s) eqn:Hmatch; [|by left].
  intros [Hold|(-> & now & ->)]%addTokenRequest_entries; [by left|].
  right. simpl. eauto.
Qed.

Lemma serve_entries rq w k e :
  tokenRequests (exec (serve JSON_stringify rq) w) !! k = Some e →
  tokenRequests w !! k = Some e ∨ files rq w k e.
Proof.
  destruct rq as [q res|state code x res|id]; simpl.
  - apply get_token_entries.
  - apply get_login_entries.
  - intros Hk. left. eapply lookup_weaken; [done|].
    apply intervalFires_subseteq.
Qed.

Lemma serve_all_snoc rqs rq w :
  serve_all JSON_stringify (rqs ++ [rq]) w
  = exec (serve JSON_stringify rq) (serve_all JSON_stringify rqs w).
Proof. unfold serve_all. by rewrite foldl_app. Qed.


(** X17.  One turn of a request whose state has the shape the guard
    accepts changes the store by at most the entry the request names:
    every entry after the turn was there before, unchanged, or is the one
    entry the request files under its own token; a callback files one only
    where the store has an entry for its token. *)
Theorem turn_files_own_entry_only rq w k e :
  guard_shaped rq →
  tokenRequests (exec (serve JSON_stringify rq) w) !! k = Some e →
  tokenRequests w !! k = Some e ∨ files rq w k e.
Proof. intros _. apply serve_entries. Qed.

(** X18.  Only polls create keys: after any sequence of turns from
    start-up in which the callbacks carry states of the shape the guard
    accepts, every key of the store is the [state] of its entry, matches
    the expression of the guard, and is the state of a poll among the
    requests. *)
Theorem keys_come_from_polls rqs c k e :
  Forall guard_shaped rqs →
  tokenRequests (serve_all JSON_stringify rqs (initial c)) !! k = Some e →
  state e = k ∧ String_match k = true
  ∧ ∃ res, Poll (QString k) res ∈ rqs.
Proof.
  intros _. revert k e. induction rqs as [|rq rqs IH] using rev_ind.
  - intros k e Hk. simpl in Hk. by rewrite lookup_empty in Hk.
  - intros k e. rewrite serve_all_snoc.
    intros [Hold|Hnew]%serve_entries.
    + destruct (IH k e Hold) as (Hstate & Hmatch & res & Hin).
      split_and!; [done..|]. exists res. apply elem_of_app. by left.
    + destruct rq as [q res|st code x res|id]; simpl in Hnew.
      * destruct Hnew as (-> & Hmatch & now & ->).
        split_and!; [done..|]. exists res. apply elem_of_app. right.
        by apply list_elem_of_singleton.
      * destruct Hnew as (_ & [old Hold] & token & now & _ & ->).
        destruct (IH k old Hold) as (_ & Hmatch & res' & Hin).
        split_and!; [done..|]. exists res'. apply elem_of_app. by left.
      * done.
Qed.


End Entries.

Lemma turn_files_own_entry_only_witness :
  tokenRequests (initial (ticking 5000)) !! state_a
    = Some (mkTokenRequest state_a (Some 1%N) 0 None)
  ∨ files (Poll (QString state_a) 1%N) (initial (ticking 5000)) state_a
          (mkTokenRequest state_a (Some 1%N) 0 None).
Proof.
  apply (turn_files_own_entry_only sample_stringify
           (Poll (QString state_a) 1%N) (initial (ticking 5000))).
  - exact I.
  - vm_compute. reflexivity.
Defined.

Lemma keys_come_from_polls_witness :
  state (mkTokenRequest state_a (Some 1%N) 0 None) = state_a
  ∧ String_match state_a = true
  ∧ ∃ res, Poll (QString state_a) res ∈ [Poll (QString state_a) 1%N].
Proof.
  apply (keys_come_from_polls sample_stringify
           [Poll (QString state_a) 1%N] (ticking 5000) state_a).
  - apply Forall_singleton. exact I.
  - vm_compute. reflexivity.
Defined.


(** ** The counter and the timer over any sequence of turns *)

Section History.

Variable JSON_stringify : AccessToken → string.

Lemma drift_same_store w w' : same_store w w' → drift w' = drift w.
Proof. intros (Hm & Hn & _). unfold drift. by rewrite Hm, Hn. Qed.

Lemma drift_same_store_le w w' : same_store w w' → drift w ≤ drift w'.
Proof. intros Hs. by rewrite (drift_same_store w w'). Qed.

Lemma handleAccessToken_drift s token w :
  drift w ≤ drift (exec (handleAccessToken JSON_stringify s token) w).
Proof.
  rewrite exec_handleAccessToken.
  destruct (tokenRequests w !! s) as [request|] eqn:Hs; [|done].
  destruct (response request) as [h|] eqn:Hh.
  - destruct (headersSent (resp w h)) eqn:Hsent.
    + rewrite addTokenRequest_drift.
      apply drift_same_store_le, res_status_same_store.
    + destruct (delivery_same_store h (JSON_stringify token) w)
        as (Hm & Hn & _).
      unfold drift. simpl. rewrite Hm, Hn.
      rewrite map_size_delete_Some by eauto. lia.
  - by rewrite addTokenRequest_drift.
Qed.

Lemma serve_drift rq w :
  drift w ≤ drift (exec (serve JSON_stringify rq) w).
Proof.
  destruct rq as [q res|state code x res|id]; simpl.
  - unfold get_token. destruct q as [s| |];
      try apply drift_same_store_le, reject_same_store.
    destruct (String_match s).
    + by rewrite addTokenRequest_drift.
    + apply drift_same_store_le, reject_same_store.
  - rewrite exec_get_login.
    destruct state as [s| |];
      try apply drift_same_store_le, reject_same_store.
    destruct code; try apply drift_same_store_le, reject_same_store.
    destruct x as [|status body]; [done|].
    destruct (token_of (ExchangeAnswered status body)) as [token|].
    + rewrite exec_login_then.
      etrans; [apply (handleAccessToken_drift s token)|].
      apply drift_same_store_le, res_end_same_store.
    + apply drift_same_store_le, res_end_same_store.
  - unfold intervalFires, exec. js_unfold.
    destruct (intervals w !! id); [|done].
    fold (exec (clearOldTokenRequests MAX_REQUEST_LIFETIME) w).
    by rewrite clearOldTokenRequests_drift.
Qed.

(** X20.  While the callbacks carry states of the shape the guard
    accepts, no turn lowers the excess of the counter over the number of
    keys: what a delivery adds to it is never taken back, and from
    start-up the counter is never below the number of keys. *)
Theorem counter_excess_never_shrinks rqs w c :
  Forall guard_shaped rqs →
  drift w ≤ drift (serve_all JSON_stringify rqs w)
  ∧ Z.of_nat (size (tokenRequests
                      (serve_all JSON_stringify rqs (initial c))))
    ≤ numTokenRequests (serve_all JSON_stringify rqs (initial c)).
Proof.
  intros _.
  assert (∀ v, drift v ≤ drift (serve_all JSON_stringify rqs v)) as Hmono.
  { intros v. induction rqs as [|rq rqs IH] using rev_ind; [done|].
    rewrite serve_all_snoc. etrans; [apply IH|apply serve_drift]. }
  split; [apply Hmono|].
  specialize (Hmono (initial c)). unfold drift in Hmono at 2.
  assert (drift (initial c) = 0) as Hzero by done. lia.
Qed.

Lemma timers_shrink_refl w : timers_shrink w w.
Proof. by unfold timers_shrink. Qed.

Lemma timers_shrink_trans w1 w2 w3 :
  timers_shrink w1 w2 → timers_shrink w2 w3 → timers_shrink w1 w3.
Proof.
  unfold timers_shrink. intros (H1 & H2 & H3) (H4 & H5 & H6).
  split_and!; [congruence|by etrans|congruence].
Qed.

Lemma same_store_timers_shrink w w' : same_store w w' → timers_shrink w w'.
Proof.
  intros (_ & _ & Hti & Hiv & Hnext). unfold timers_shrink.
  by rewrite Hti, Hiv, Hnext.
Qed.

Lemma clearOldTokenRequests_timers thr w :
  timers_shrink w (exec (clearOldTokenRequests thr) w).
Proof.
  destruct (clearOldTokenRequests_spec thr w)
    as (w' & Hrun & _ & _ & Hti & Hiv & Hnext & _).
  unfold exec. rewrite Hrun. by unfold timers_shrink.
Qed.

Lemma forceClearOldTokenRequests_timers w :
  timers_shrink w (exec forceClearOldTokenRequests w).
Proof.
  unfold exec. rewrite forceClearOldTokenRequests_run.
  apply (clearOldTokenRequests_timers (meanThreshold w)
           (set_clockReads (N.succ (clockReads w)) w)).
Qed.

Lemma evictIfFull_timers w : timers_shrink w (exec evictIfFull w).
Proof.
  destruct (decide (numTokenRequests w >= MAX_TOKEN_REQUESTS)) as [Hfull|Hlow].
  - rewrite evictIfFull_full by done. cbv zeta.
    case_bool_decide.
    + eapply timers_shrink_trans; [apply clearOldTokenRequests_timers|].
      apply forceClearOldTokenRequests_timers.
    + apply clearOldTokenRequests_timers.
  - unfold exec. rewrite evictIfFull_below by lia. apply timers_shrink_refl.
Qed.

Lemma storeRequest_timers s r t w :
  timers_shrink w (exec (storeRequest JSON_stringify s r t) w).
Proof.
  unfold exec, timers_shrink.
  destruct (tokenRequests w !! s) as [old|] eqn:Hs;
    [|by rewrite storeRequest_create].
  destruct (result old) as [stored|] eqn:Hres; [destruct r as [h|]|].
  - by rewrite (storeRequest_replay _ s h t w old stored).
  - rewrite (storeRequest_replace _ s None t w old); auto.
  - rewrite (storeRequest_replace _ s r t w old); auto.
Qed.

Lemma timer_history_shrink w w' :
  timers_shrink w w' → timer_history w → timer_history w'.
Proof.
  unfold timers_shrink, timer_history. intros (-> & Hiv & ->).
  destruct (tokenRequestClearerInterval w) as [id|].
  - intros (-> & Hnext & Hsub). split_and!; [done..|by etrans].
  - intros (Hnext & Hempty). split; [done|].
    rewrite Hempty in Hiv. apply map_empty. intros i.
    destruct (intervals w' !! i) as [p|] eqn:Hp; [|done].
    eapply lookup_weaken in Hp; [|exact Hiv].
    by rewrite lookup_empty in Hp.
Qed.

Lemma ensureClearer_timer_history w :
  timer_history w → timer_history (exec ensureClearer w).
Proof.
  unfold timer_history.
  destruct (tokenRequestClearerInterval w) as [id|] eqn:Hid.
  - rewrite (ensureClearer_set w id) by done. by rewrite Hid.
  - rewrite ensureClearer_unset by done. simpl. intros (-> & ->).
    by rewrite insert_empty.
Qed.

Lemma addTokenRequest_timer_history s r t w :
  timer_history w →
  timer_history (exec (addTokenRequest JSON_stringify s r t) w).
Proof.
  intros Hw. rewrite exec_addTokenRequest.
  apply ensureClearer_timer_history.
  eapply timer_history_shrink; [apply storeRequest_timers|].
  eapply timer_history_shrink; [apply evictIfFull_timers|done].
Qed.

Lemma handleAccessToken_timer_history s token w :
  timer_history w →
  timer_history (exec (handleAccessToken JSON_stringify s token) w).
Proof.
  intros Hw. rewrite exec_handleAccessToken.
  destruct (tokenRequests w !! s) as [request|] eqn:Hs; [|done].
  destruct (response request) as [h|] eqn:Hh.
  - destruct (headersSent (resp w h)) eqn:Hsent.
    + apply addTokenRequest_timer_history.
      eapply timer_history_shrink; [|done].
      apply same_store_timers_shrink, res_status_same_store.
    + eapply timer_history_shrink; [|exact Hw].
      destruct (delivery_same_store h (JSON_stringify token) w)
        as (_ & _ & Hti & Hiv & Hnext).
      unfold timers_shrink. simpl. by rewrite Hti, Hiv, Hnext.
  - by apply addTokenRequest_timer_history.
Qed.

Lemma serve_timer_history rq w :
  timer_history w → timer_history (exec (serve JSON_stringify rq) w).
Proof.
  intros Hw.
  assert (∀ w', same_store w w' → timer_history w') as Hsame.
  { intros w' Hw'. eapply timer_history_shrink; [|exact Hw].
    by apply same_store_timers_shrink. }
  destruct rq as [q res|state code x res|id]; simpl.
  - unfold get_token. destruct q as [s| |];
      try apply Hsame, reject_same_store.
    destruct (String_match s).
    + by apply addTokenRequest_timer_history.
    + apply Hsame, reject_same_store.
  - rewrite exec_get_login.
    destruct state as [s| |]; try apply Hsame, reject_same_store.
    destruct code; try apply Hsame, reject_same_store.
    destruct x as [|status body]; [done|].
    destruct (token_of (ExchangeAnswered status body)) as [token|].
    + rewrite exec_login_then.
      eapply timer_history_shrink;
        [apply same_store_timers_shrink, res_end_same_store|].
      by apply handleAccessToken_timer_history.
    + apply Hsame, res_end_same_store.
  - unfold intervalFires, exec. js_unfold.
    destruct (intervals w !! id); [|done].
    eapply timer_history_shrink; [|exact Hw].
    apply clearOldTokenRequests_timers.
Qed.

(** X21.  Over any sequence of turns from start-up [setInterval] runs at
    most once: the only timer the server ever has is timer 0 with a period
    of [MAX_REQUEST_LIFETIME + 1000], and once the sweep has cancelled it
    no turn schedules another. *)
Theorem sweep_timer_is_created_at_most_once rqs c :
  timer_history (serve_all JSON_stringify rqs (initial c)).
Proof.
  induction rqs as [|rq rqs IH] using rev_ind.
  - by unfold timer_history.
  - rewrite serve_all_snoc. by apply serve_timer_history.
Qed.

End History.

(** ** One response object per request *)

Section Fresh.

Variable JSON_stringify : AccessToken → string.

Lemma waiters_fresh_transfer used w w' :
  tokenRequests w' = tokenRequests w →
  (∀ h, resp w' h = resp w h) →
  waiters_fresh used w → waiters_fresh used w'.
Proof.
  intros Hm Hr (Hun & Hat & Huq). unfold waiters_fresh. rewrite Hm.
  split_and!.
  - intros h Hh. rewrite Hr. by apply Hun.
  - intros k e h Hk He. rewrite Hr. by apply (Hat k e).
  - exact Huq.
Qed.

(** A write to a response that has not been handed out before. *)
Lemma waiters_fresh_own_write used res w w' :
  res ∉ used →
  tokenRequests w' = tokenRequests w →
  (∀ h, res ≠ h → resp w' h = resp w h) →
  waiters_fresh used w → waiters_fresh (used ++ [res]) w'.
Proof.
  intros Hres Hm Hr (Hun & Hat & Huq). unfold waiters_fresh. rewrite Hm.
  split_and!.
  - intros h Hh. rewrite not_elem_of_app, not_elem_of_cons in Hh.
    destruct Hh as (Hh & Hne & _). rewrite Hr by done. by apply Hun.
  - intros k e h Hk He. destruct (Hat k e h Hk He) as [Hin Hfr].
    split; [apply elem_of_app; by left|].
    rewrite Hr; [done|]. by intros ->.
  - exact Huq.
Qed.

Lemma waiters_fresh_grow used res w :
  res ∉ used → waiters_fresh used w → waiters_fresh (used ++ [res]) w.
Proof. intros Hres. by apply waiters_fresh_own_write. Qed.

Lemma clearOldTokenRequests_fresh used thr w :
  waiters_fresh used w →
  waiters_fresh used (exec (clearOldTokenRequests thr) w).
Proof.
  intros (Hun & Hat & Huq).
  destruct (clearOldTokenRequests_waiters thr w) as [_ Hresp].
  cbv zeta in Hresp.
  pose proof (clearOldTokenRequests_lookup thr w) as Hlk.
  split_and!.
  - intros h Hh. rewrite Hresp; [by apply Hun|].
    intros k e Hk _ He. destruct (Hat k e h Hk He) as [Hin _]. done.
  - intros k e h [Hk Hyoung]%Hlk He.
    destruct (Hat k e h Hk He) as [Hin Hfr]. split; [done|].
    rewrite Hresp; [done|]. intros k2 e2 Hk2 Hold2 He2.
    assert (k2 = k) as -> by (by apply (Huq k2 k e2 e h)).
    rewrite Hk in Hk2. injection Hk2 as <-. done.
  - intros k k' e e' h [Hk _]%Hlk He [Hk' _]%Hlk He'.
    by apply (Huq k k' e e' h).
Qed.

Lemma forceClearOldTokenRequests_fresh used w :
  waiters_fresh used w →
  waiters_fresh used (exec forceClearOldTokenRequests w).
Proof.
  intros Hw. unfold exec. rewrite forceClearOldTokenRequests_run.
  apply (clearOldTokenRequests_fresh used (meanThreshold w)
           (set_clockReads (N.succ (clockReads w)) w)).
  exact Hw.
Qed.

Lemma evictIfFull_fresh used w :
  waiters_fresh used w → waiters_fresh used (exec evictIfFull w).
Proof.
  intros Hw.
  destruct (decide (numTokenRequests w >= MAX_TOKEN_REQUESTS)) as [Hfull|Hlow].
  - rewrite evictIfFull_full by done. cbv zeta.
    case_bool_decide.
    + by apply forceClearOldTokenRequests_fresh, clearOldTokenRequests_fresh.
    + by apply clearOldTokenRequests_fresh.
  - unfold exec. by rewrite evictIfFull_below by lia.
Qed.

Lemma waiters_fresh_insert used s r now t w w' :
  (∀ h, r = Some h → h ∉ used) →
  tokenRequests w' = <[s := mkTokenRequest s r now t]> (tokenRequests w) →
  (∀ h, resp w' h = resp w h) →
  waiters_fresh used w → waiters_fresh (used ++ option_list r) w'.
Proof.
  intros Hr Hm Hresp (Hun & Hat & Huq). unfold waiters_fresh. rewrite Hm.
  split_and!.
  - intros h [Hh _]%not_elem_of_app. rewrite Hresp. by apply Hun.
  - intros k e h [[<- <-]|[Hne Hk]]%lookup_insert_Some He; simpl in He.
    + subst r. simpl. split; [apply elem_of_app; right; by left|].
      rewrite Hresp. apply Hun. by apply Hr.
    + destruct (Hat k e h Hk He) as [Hin Hfr].
      split; [apply elem_of_app; by left|]. by rewrite Hresp.
  - intros k k' e e' h
      [[<- <-]|[Hne Hk]]%lookup_insert_Some He
      [[<- <-]|[Hne' Hk']]%lookup_insert_Some He'; simpl in *.
    + done.
    + destruct (Hat k' e' h Hk' He') as [Hin _]. by destruct (Hr h).
    + destruct (Hat k e h Hk He) as [Hin _]. by destruct (Hr h).
    + by apply (Huq k k' e e' h).
Qed.

Lemma write_200_frame h chunk w h' :
  h ≠ h' →
  resp (exec (res_status h 200;; res_write h chunk) w) h' = resp w h'.
Proof.
  intros Hne. unfold res_status, res_write, update_response, resp. js_unfold.
  simpl. by rewrite !lookup_insert_ne.
Qed.

Lemma storeRequest_fresh used s r t w :
  (∀ h, r = Some h → h ∉ used) →
  waiters_fresh used w →
  waiters_fresh (used ++ option_list r)
    (exec (storeRequest JSON_stringify s r t) w).
Proof.
  intros Hr Hw. unfold exec.
  destruct (tokenRequests w !! s) as [old|] eqn:Hs.
  - destruct (result old) as [stored|] eqn:Hres; [destruct r as [h|]|].
    + rewrite (storeRequest_replay _ s h t w old stored) by done.
      apply (waiters_fresh_own_write used h w).
      * by apply Hr.
      * reflexivity.
      * intros h' Hne.
        exact (write_200_frame h (JSON_stringify stored)
                 (set_clockReads (N.succ (clockReads w)) w) h' Hne).
      * exact Hw.
    + rewrite (storeRequest_replace _ s None t w old) by auto. simpl.
      by apply (waiters_fresh_insert used s None
                  (clock w (clockReads w)) t w).
    + rewrite (storeRequest_replace _ s r t w old) by auto. simpl.
      by apply (waiters_fresh_insert used s r (clock w (clockReads w)) t w).
  - rewrite storeRequest_create by done. simpl.
    by apply (waiters_fresh_insert used s r (clock w (clockReads w)) t w).
Qed.

Lemma addTokenRequest_fresh used s r t w :
  (∀ h, r = Some h → h ∉ used) →
  waiters_fresh used w →
  waiters_fresh (used ++ option_list r)
    (exec (addTokenRequest JSON_stringify s r t) w).
Proof.
  intros Hr Hw. rewrite exec_addTokenRequest.
  destruct (ensureClearer_frame
              (exec (storeRequest JSON_stringify s r t) (exec evictIfFull w)))
    as (Hm & _ & Hh & _).
  eapply waiters_fresh_transfer; [exact Hm| |].
  - intros h. unfold resp. by rewrite Hh.
  - apply storeRequest_fresh; [done|]. by apply evictIfFull_fresh.
Qed.

Lemma delivery_frame h chunk w h' :
  h ≠ h' →
  resp (exec (res_status h 200;;
              res_header h "Content-type" "application/json";;
              res_end h (Some chunk)) w) h' = resp w h'.
Proof.
  intros Hne.
  unfold res_status, res_header, res_end, update_response, resp, exec.
  js_unfold. simpl. rewrite lookup_insert_eq. simpl.
  destruct (headersSent (default fresh_response (heap w !! h))); simpl;
    by rewrite !lookup_insert_ne.
Qed.

Lemma handleAccessToken_fresh used s token w :
  waiters_fresh used w →
  waiters_fresh used (exec (handleAccessToken JSON_stringify s token) w).
Proof.
  intros Hw. rewrite exec_handleAccessToken.
  destruct (tokenRequests w !! s) as [request|] eqn:Hs; [|done].
  destruct (response request) as [h|] eqn:Hh.
  - destruct Hw as (Hun & Hat & Huq).
    destruct (Hat s request h Hs Hh) as [Hin Hfr]. rewrite Hfr.
    change (headersSent fresh_response) with false. cbv iota.
    destruct (delivery_same_store h (JSON_stringify token) w) as (Hm & _).
    pose proof (delivery_frame h (JSON_stringify token) w) as Hframe.
    set (v := exec (res_status h 200;;
                    res_header h "Content-type" "application/json";;
                    res_end h (Some (JSON_stringify token))) w) in *.
    unfold waiters_fresh.
    change (tokenRequests (set_tokenRequests (delete s) v))
      with (delete s (tokenRequests v)).
    change (resp (set_tokenRequests (delete s) v)) with (resp v).
    rewrite Hm. split_and!.
    + intros h' Hh'. rewrite Hframe; [by apply Hun|].
      by intros ->.
    + intros k e h' [Hne Hk]%lookup_delete_Some He.
      destruct (Hat k e h' Hk He) as [Hin' Hfr']. split; [done|].
      rewrite Hframe; [done|]. intros ->.
      apply Hne. by apply (Huq s k request e h').
    + intros k k' e e' h' [_ Hk]%lookup_delete_Some He
        [_ Hk']%lookup_delete_Some He'.
      by apply (Huq k k' e e' h').
  - rewrite <- (app_nil_r used).
    by apply (addTokenRequest_fresh used s None (Some token) w).
Qed.

Lemma res_end_frame h chunk w h' :
  h ≠ h' → resp (exec (res_end h chunk) w) h' = resp w h'.
Proof.
  intros Hne. by destruct (res_end_spec h chunk w) as (_ & _ & _ & _ & _ & ->).
Qed.

Lemma serve_fresh used rq w :
  (∀ h, handle_of rq = Some h → h ∉ used) →
  waiters_fresh used w →
  waiters_fresh (used ++ option_list (handle_of rq))
    (exec (serve JSON_stringify rq) w).
Proof.
  intros Hrq Hw.
  destruct rq as [q res|state code x res|id]; simpl.
  - assert (res ∉ used) as Hres by (by apply Hrq).
    assert (waiters_fresh (used ++ [res])
              (exec (res_status res 400;; res_end res None) w)) as Hreject.
    { apply (waiters_fresh_own_write used res w); try done.
      intros h Hne. by apply reject_400_frame. }
    unfold get_token. destruct q as [s| |]; try exact Hreject.
    destruct (String_match s); [|exact Hreject].
    apply (addTokenRequest_fresh used s (Some res) None w); [|done].
    by intros h [= <-].
  - assert (res ∉ used) as Hres by (by apply Hrq).
    assert (waiters_fresh (used ++ [res])
              (exec (res_status res 400;; res_end res None) w)) as Hreject.
    { apply (waiters_fresh_own_write used res w); try done.
      intros h Hne. by apply reject_400_frame. }
    assert (∀ chunk v, waiters_fresh used v →
              waiters_fresh (used ++ [res]) (exec (res_end res chunk) v))
      as Hend.
    { intros chunk v Hv. apply (waiters_fresh_own_write used res v);
        try done.
      intros h Hne. by apply res_end_frame. }
    rewrite exec_get_login.
    destruct state as [s| |]; try exact Hreject.
    destruct code; try exact Hreject.
    destruct x as [|status body]; [by apply waiters_fresh_grow|].
    destruct (token_of (ExchangeAnswered status body)) as [token|].
    + rewrite exec_login_then. apply Hend.
      by apply handleAccessToken_fresh.
    + by apply Hend.
  - rewrite app_nil_r. unfold intervalFires, exec. js_unfold.
    destruct (intervals w !! id); [|done].
    by apply clearOldTokenRequests_fresh.
Qed.

Lemma handles_snoc rqs rq :
  handles (rqs ++ [rq]) = handles rqs ++ option_list (handle_of rq).
Proof.
  unfold handles. rewrite omap_app. simpl. by destruct (handle_of rq).
Qed.

Lemma serve_all_fresh rqs c :
  NoDup (handles rqs) →
  waiters_fresh (handles rqs) (serve_all JSON_stringify rqs (initial c)).
Proof.
  induction rqs as [|rq rqs IH] using rev_ind; intros Hnd.
  - split_and!; [done| |].
    + intros k e h Hk. simpl in Hk. by rewrite lookup_empty in Hk.
    + intros k k' e e' h Hk. simpl in Hk. by rewrite lookup_empty in Hk.
  - rewrite handles_snoc in Hnd |- *. rewrite serve_all_snoc.
    apply NoDup_app in Hnd as (Hnd & Hdisj & _).
    apply serve_fresh; [|by apply IH].
    intros h Hh Hin. apply (Hdisj h Hin). rewrite Hh. simpl. by left.
Qed.

(** X22.  When every request comes with a response object of its own, a
    response that an entry waits on has never been written to, was handed
    out by an earlier request, and is awaited under one key only. *)
Theorem waiting_responses_are_untouched rqs c k e h :
  NoDup (handles rqs) →
  let w := serve_all JSON_stringify rqs (initial c) in
  tokenRequests w !! k = Some e →
  response e = Some h →
  resp w h = fresh_response
  ∧ h ∈ handles rqs
  ∧ ∀ k' e', tokenRequests w !! k' = Some e' → response e' = Some h → k' = k.
Proof.
  intros Hnd w Hk He. destruct (serve_all_fresh rqs c Hnd) as (_ & Hat & Huq).
  destruct (Hat k e h Hk He) as [Hin Hfr]. split_and!; [done..|].
  intros k' e' Hk' He'. by apply (Huq k' k e' e h).
Qed.

(** X23.  When every request comes with a response object of its own and
    the callbacks carry states of the shape the guard accepts, a callback
    that obtains a token for a state with a waiting poll always reaches
    that poll: nothing is thrown, the poll gets status 200 and the
    serialized token as its whole body and is closed, the entry is
    removed, and the callback thanks its own caller and closes it.  (The
    statement says nothing of the header the delivery sets.) *)
Theorem callback_always_reaches_waiter rqs c s code token res request h :
  Forall guard_shaped rqs →
  NoDup (handles rqs ++ [res]) →
  let w := serve_all JSON_stringify rqs (initial c) in
  tokenRequests w !! s = Some request →
  response request = Some h →
  let x := ExchangeAnswered 200 (BodyToken token) in
  let w' := exec (get_login JSON_stringify (QString s) (QString code) x res) w in
  throws (get_login JSON_stringify (QString s) (QString code) x res) w = false
  ∧ tokenRequests w' = delete s (tokenRequests w)
  ∧ statusCode (resp w' h) = 200
  ∧ body (resp w' h) = [JSON_stringify token]
  ∧ finished (resp w' h) = true
  ∧ body (resp w' res)
    = ["Thanks for logging into Flowdoge. You can close this now."]
  ∧ finished (resp w' res) = true.
Proof.
  intros _ Hnd w Hs Hh x w'. subst x w'.
  apply NoDup_app in Hnd as (Hnd & Hdisj & _).
  destruct (serve_all_fresh rqs c Hnd) as (Hun & Hat & _). fold w in Hun, Hat.
  destruct (Hat s request h Hs Hh) as [Hin Hfr].
  assert (res ∉ handles rqs) as Hres.
  { intros Hin'. apply (Hdisj res Hin'). by left. }
  assert (res ≠ h) as Hne by (by intros ->).
  pose proof (Hun res Hres) as Hfres.
  destruct (get_login_delivers JSON_stringify s code token res w request h)
    as (Hthrows & Hmap & Hdel & Hbody & Hfin & Hframe); try done.
  { rewrite Hfr. by split. }
  { by rewrite Hfres. }
  cbv zeta in Hmap, Hdel, Hbody, Hfin, Hframe.
  rewrite Hdel, Hfr, Hbody, Hfres. by split_and!.
Qed.

End Fresh.

Lemma waiting_responses_are_untouched_witness :
  resp after_poll_a 1%N = fresh_response
  ∧ 1%N ∈ handles [Poll (QString state_a) 1%N]
  ∧ ∀ k' e', tokenRequests after_poll_a !! k' = Some e' →
             response e' = Some 1%N → k' = state_a.
Proof.
  apply (waiting_responses_are_untouched sample_stringify
           [Poll (QString state_a) 1%N] (ticking 5000) state_a
           (mkTokenRequest state_a (Some 1%N) 0 None) 1%N).
  - apply NoDup_singleton.
  - vm_compute. reflexivity.
  - reflexivity.
Defined.

Lemma callback_always_reaches_waiter_witness :
  throws callback_a after_poll_a = false
  ∧ tokenRequests (exec callback_a after_poll_a)
    = delete state_a (tokenRequests after_poll_a)
  ∧ statusCode (resp (exec callback_a after_poll_a) 1%N) = 200
  ∧ body (resp (exec callback_a after_poll_a) 1%N)
    = [sample_stringify sample_token]
  ∧ finished (resp (exec callback_a after_poll_a) 1%N) = true
  ∧ body (resp (exec callback_a after_poll_a) 2%N)
    = ["Thanks for logging into Flowdoge. You can close this now."]
  ∧ finished (resp (exec callback_a after_poll_a) 2%N) = true.
Proof.
  refine (callback_always_reaches_waiter sample_stringify
            [Poll (QString state_a) 1%N] (ticking 5000) state_a "code"
            sample_token 2%N (mkTokenRequest state_a (Some 1%N) 0 None) 1%N
            _ _ _ _).
  - apply Forall_singleton. exact I.
  - apply NoDup_cons. split; [|apply NoDup_singleton].
    intros Hin. apply list_elem_of_singleton in Hin. discriminate.
  - vm_compute. reflexivity.
  - reflexivity.
Defined.

(** ** Responses the server was not asked about *)

Section Bystanders.

Variable JSON_stringify : AccessToken → string.

Lemma res_end_silent h res chunk : res ≠ h → silent h (res_end res chunk).
Proof. intros Hne. by apply silent_update. Qed.

Lemma reject_silent h res :
  res ≠ h → silent h (res_status res 400;; res_end res None).
Proof.
  intros Hne. apply silent_bind; [by apply silent_update|]. intros _.
  by apply res_end_silent.
Qed.

Lemma get_token_silent h q res :
  res ≠ h → silent h (get_token JSON_stringify q res).
Proof.
  intros Hne. unfold get_token. destruct q as [s| |];
    try by apply reject_silent.
  destruct (String_match s); [|by apply reject_silent].
  apply addTokenRequest_silent. by intros [= ->].
Qed.

Lemma get_login_silent h state code x res :
  res ≠ h → silent h (get_login JSON_stringify state code x res).
Proof.
  intros Hne. unfold get_login.
  destruct state as [s| |]; try by apply reject_silent.
  destruct code; try by apply reject_silent.
  unfold login_settled. destruct x as [|status body]; [apply silent_ret|].
  case_bool_decide; [|by apply res_end_silent].
  destruct body; try by apply res_end_silent.
  unfold login_then. apply silent_try_catch.
  - apply silent_bind; [apply handleAccessToken_silent|]. intros _.
    by apply res_end_silent.
  - intros _. by apply res_end_silent.
Qed.

Lemma serve_silent h rq :
  handle_of rq ≠ Some h → silent h (serve JSON_stringify rq).
Proof.
  destruct rq as [q res|state code x res|id]; simpl; intros Hne.
  - apply get_token_silent. by intros ->.
  - apply get_login_silent. by intros ->.
  - unfold intervalFires. apply silent_bind; [apply silent_gets|].
    intros [p|]; [apply clearOldTokenRequests_silent|apply silent_ret].
Qed.

Lemma serve_all_silent h rqs : ∀ w,
  ¬ attached w h →
  h ∉ handles rqs →
  resp (serve_all JSON_stringify rqs w) h = resp w h
  ∧ ¬ attached (serve_all JSON_stringify rqs w) h.
Proof.
  induction rqs as [|rq rqs IH] using rev_ind; intros w Hw Hh; [done|].
  rewrite handles_snoc in Hh. apply not_elem_of_app in Hh as [Hh Hrq].
  destruct (IH w Hw Hh) as [Hresp Hatt]. rewrite serve_all_snoc.
  destruct (serve_silent h rq) with (w := serve_all JSON_stringify rqs w)
    as [Hheap Hatt2]; [|done|].
  { intros Heq. apply Hrq. rewrite Heq. simpl. by left. }
  split; [|done]. unfold resp in *. by rewrite Hheap.
Qed.

(** X24.  The server writes to a response only when a request hands it
    over: a response that no entry waits on and that none of the requests
    carries is left as it was by any sequence of turns, and no entry comes
    to wait on it. *)
Theorem turns_leave_bystanders_alone rqs w h :
  ¬ attached w h →
  h ∉ handles rqs →
  resp (serve_all JSON_stringify rqs w) h = resp w h
  ∧ ¬ attached (serve_all JSON_stringify rqs w) h.
Proof. apply serve_all_silent. Qed.

Lemma get_token_normal q res w :
  throws (get_token JSON_stringify q res) w = false.
Proof.
  unfold get_token. destruct q as [s| |]; try done.
  destruct (String_match s); [|done]. apply addTokenRequest_normal.
Qed.

Lemma login_then_normal s token res w :
  throws (login_then JSON_stringify s token res) w = false.
Proof.
  unfold login_then, try_catch, throws. unfold mbind, JS_bind.
  by destruct (handleAccessToken JSON_stringify s token w) as [[[]|err] w1].
Qed.

Lemma get_login_normal state code x res w :
  throws (get_login JSON_stringify state code x res) w = false.
Proof.
  unfold get_login. destruct state as [s| |]; try done.
  destruct code; try done.
  unfold login_settled. destruct x as [|status body]; [done|].
  case_bool_decide; [|done]. destruct body; try done.
  apply login_then_normal.
Qed.

Lemma intervalFires_normal id w : throws (intervalFires id) w = false.
Proof.
  unfold intervalFires, throws. unfold mbind, JS_bind, gets.
  destruct (intervals w !! id); [|done].
  by rewrite clearOldTokenRequests_normal.
Qed.

(** X25.  No turn ends in an uncaught exception: the polls and the sweep
    never throw, and what [handleAccessToken] throws inside a callback is
    caught by the callback's own [catch]. *)
Theorem no_turn_throws rq w : throws (serve JSON_stringify rq) w = false.
Proof.
  destruct rq as [q res|state code x res|id]; simpl.
  - apply get_token_normal.
  - apply get_login_normal.
  - apply intervalFires_normal.
Qed.

End Bystanders.

Lemma turns_leave_bystanders_alone_witness :
  resp (serve_all sample_stringify
          [Poll (QString state_a) 1%N;
           Callback (QString state_a) (QString "code")
             (ExchangeAnswered 200 (BodyToken sample_token)) 2%N]
          (initial (ticking 5000))) 3%N
  = resp (initial (ticking 5000)) 3%N
  ∧ ¬ attached (serve_all sample_stringify
          [Poll (QString state_a) 1%N;
           Callback (QString state_a) (QString "code")
             (ExchangeAnswered 200 (BodyToken sample_token)) 2%N]
          (initial (ticking 5000))) 3%N.
Proof.
  apply (turns_leave_bystanders_alone sample_stringify).
  - intros (k & e & Hk & _). simpl in Hk. by rewrite lookup_empty in Hk.
  - unfold handles. simpl. rewrite !not_elem_of_cons. split_and!; try done.
    apply not_elem_of_nil.
Defined.

(** ** The second pass under an inflated counter *)

(** X26.  The divisor of the mean is the counter, not the number of keys:
    once the counter exceeds twice the sum of the ages, the threshold of
    the second pass is zero and the pass evicts every entry that is older
    than zero at its second clock reading. *)
Theorem inflated_counter_purges_all w k e :
  0 ≤ totalAge w →
  2 * totalAge w < numTokenRequests w →
  tokenRequests w !! k = Some e →
  age (set_clockReads (N.succ (clockReads w)) w) e > 0 →
  meanThreshold w = 0
  ∧ tokenRequests (exec forceClearOldTokenRequests w) !! k = None.
Proof.
  intros Hpos Hlt Hk Hage.
  assert (meanThreshold w = 0) as Hzero.
  { rewrite meanThreshold_eq. unfold Math_round_div.
    apply Z.div_small. lia. }
  split; [done|].
  destruct (tokenRequests (exec forceClearOldTokenRequests w) !! k)
    as [e'|] eqn:Hk'; [|done].
  apply forceClearOldTokenRequests_lookup in Hk' as [Hk' Hyoung].
  rewrite Hk in Hk'. injection Hk' as <-. lia.
Qed.

Lemma inflated_counter_purges_all_witness :
  meanThreshold inflated = 0
  ∧ tokenRequests (exec forceClearOldTokenRequests inflated) !! state_a = None.
Proof.
  apply (inflated_counter_purges_all inflated state_a
           (held state_a 0 sample_token)).
  - vm_compute. discriminate.
  - vm_compute. reflexivity.
  - vm_compute. reflexivity.
  - vm_compute. reflexivity.
Defined.

Lemma handleAccessToken_throws_iff_witness :
  throws (handleAccessToken sample_stringify state_a sample_token)
         (initial (frozen 0)) = true
  ↔ tokenRequests (initial (frozen 0)) !! state_a = None.
Proof.
  apply (handleAccessToken_throws_iff sample_stringify state_a sample_token
           (initial (frozen 0))).
  reflexivity.
Defined.

Lemma counter_excess_never_shrinks_witness :
  drift (initial (ticking 5000))
  ≤ drift (serve_all sample_stringify poll_then_callback_a
             (initial (ticking 5000)))
  ∧ Z.of_nat (size (tokenRequests
                      (serve_all sample_stringify poll_then_callback_a
                         (initial (ticking 5000)))))
    ≤ numTokenRequests (serve_all sample_stringify poll_then_callback_a
                          (initial (ticking 5000))).
Proof.
  apply (counter_excess_never_shrinks sample_stringify poll_then_callback_a
           (initial (ticking 5000)) (ticking 5000)).
  apply Forall_cons. split; [exact I|].
  apply Forall_singleton. reflexivity.
Defined.
